(** * make_local_connectivity_scorr: a shallow embedding

    The script builds a spatially constrained connectivity matrix from an fMRI
    data set.  This file embeds the two coordinate helpers
    ([indx_1dto3d], [indx_3dto1d]) and the body of
    [make_local_connectivity_scorr] and states the properties of the written
    specification against them.

    Conventions.
    - Integer arrays are [list Z]; NumPy integer division ([divide] on integer
      arrays under Python 2) is floor division, which is [Z.div].
    - Floating-point arrays are lists of binary64 values ([PrimFloat.float]),
      the type NumPy uses for [float64].
    - Two-dimensional float arrays are stored as the list of their columns
      when they hold one time course per voxel ([imdat], [tc]) and as the list
      of their rows otherwise ([fc], [R], [sparse_w]).
    - A raised exception is a value of [result].

    What is taken from the libraries.
    - Indexing with an integer array follows Python's rule, for NumPy arrays
      and for the sparse column alike: an index in [-n, 0) is read from the
      end, an index outside [-n, n) raises [IndexError].
    - [mean], [var], [std], [dot] and [cov] add their terms from the first to
      the last; [var] and [std] divide by the number of entries.
    - [corrcoef] of a single variable is 1, and of several variables the
      covariance over the square root of the product of the variances, as
      in the NumPy the script was written against (the script's test
      [rank(R) == 0] is for that scalar).
    - Integers are unbounded. *)

From Stdlib Require Import ZArith List Lia Bool Floats Uint63 Sorted.
Import ListNotations.
Open Scope Z_scope.

(** ** Exceptions *)

Inductive result (A : Type) : Type :=
| Ok (a : A)
| IndexError
| ValueError.

Arguments Ok {A} a.
Arguments IndexError {A}.
Arguments ValueError {A}.

Definition bind {A B : Type} (r : result A) (k : A -> result B) : result B :=
  match r with
  | Ok a => k a
  | IndexError => IndexError
  | ValueError => ValueError
  end.

Notation "x <- r ;; k" := (bind r (fun x => k))
  (at level 61, r at next level, right associativity).

Fixpoint mapM {A B : Type} (f : A -> result B) (l : list A) : result (list B) :=
  match l with
  | [] => Ok []
  | a :: l' => b <- f a ;; bs <- mapM f l' ;; Ok (b :: bs)
  end.

(** ** Coordinate helpers *)

(** A spatial shape, the 3-sequence [sz] both helpers receive. *)
Definition shape3 : Type := (Z * Z * Z)%type.

Definition coord : Type := (Z * Z * Z)%type.

(** [prod(sz[1:3])] *)
Definition prod_1_3 (sz : shape3) : Z :=
  let '(_, s1, s2) := sz in s1 * s2.

(** [sz[2]] *)
Definition sz_2 (sz : shape3) : Z :=
  let '(_, _, s2) := sz in s2.

(** [prod(sz)] for a 3-sequence *)
Definition prod3 (sz : shape3) : Z :=
  let '(s0, s1, s2) := sz in s0 * s1 * s2.

Definition indx_1dto3d (idx : Z) (sz : shape3) : coord :=
  let x := idx / prod_1_3 sz in
  let y := (idx - x * prod_1_3 sz) / sz_2 sz in
  let z := idx - x * prod_1_3 sz - y * sz_2 sz in
  (x, y, z).

(** The argument of [indx_3dto1d] is either one triple (an array of rank 1)
    or a batch of triples (an N x 3 array); the result is a scalar or a
    vector accordingly. *)
Inductive index_array : Type :=
| Rank1 (c : coord)
| Rank2 (rows : list coord).

Inductive flat_index : Type :=
| Scalar (i : Z)
| Vector (v : list Z).

Definition indx_3dto1d (idx : index_array) (sz : shape3) : flat_index :=
  match idx with
  | Rank1 (i0, i1, i2) =>
      Scalar (i0 * prod_1_3 sz + i1 * sz_2 sz + i2)
  | Rank2 rows =>
      Vector (map (fun r : coord =>
                     let '(r0, r1, r2) := r in
                     r0 * prod_1_3 sz + r1 * sz_2 sz + r2) rows)
  end.

(** The flat index of one triple, as a number. *)
Definition flat1 (c : coord) (sz : shape3) : Z :=
  match indx_3dto1d (Rank1 c) sz with
  | Scalar i => i
  | Vector _ => 0
  end.

(** The flat indices of a batch, as a list. *)
Definition flatN (cs : list coord) (sz : shape3) : list Z :=
  match indx_3dto1d (Rank2 cs) sz with
  | Scalar _ => []
  | Vector v => v
  end.

Definition shape_pos (sz : shape3) : Prop :=
  let '(s0, s1, s2) := sz in 0 < s0 /\ 0 < s1 /\ 0 < s2.

Definition in_bounds (c : coord) (sz : shape3) : Prop :=
  let '(x, y, z) := c in
  let '(s0, s1, s2) := sz in
  0 <= x < s0 /\ 0 <= y < s1 /\ 0 <= z < s2.

(** ** NumPy and SciPy operations the script calls *)

(** [nonzero(a)[0]] for a one-dimensional array: the positions of its true
    (non-zero) entries, in increasing order. *)
Fixpoint nonzero_from (k : Z) (a : list bool) : list Z :=
  match a with
  | [] => []
  | b :: a' => if b then k :: nonzero_from (k + 1) a' else nonzero_from (k + 1) a'
  end.

Definition nonzero (a : list bool) : list Z := nonzero_from 0 a.

(** The truth value of an integer entry. *)
Definition nz (v : Z) : bool := negb (v =? 0).

(** Python's index rule on an axis of length [n]: an index in [-n, 0) counts
    from the end, an index outside [-n, n) raises [IndexError]. *)
Definition norm_index (n i : Z) : result Z :=
  if (i <? - n) || (n <=? i) then IndexError
  else Ok (if i <? 0 then i + n else i).

Definition getitem {A : Type} (a : list A) (i : Z) : result A :=
  j <- norm_index (Z.of_nat (length a)) i ;;
  match nth_error a (Z.to_nat j) with
  | Some x => Ok x
  | None => IndexError
  end.

(** [a[idx]] for an integer index array [idx]. *)
Definition take {A : Type} (a : list A) (idx : list Z) : result (list A) :=
  mapM (getitem a) idx.

(** Conversion of an integer to [float64]. *)
Definition Z2F (z : Z) : float :=
  if z <? 0 then PrimFloat.opp (PrimFloat.of_uint63 (Uint63.of_Z (- z)))
  else PrimFloat.of_uint63 (Uint63.of_Z z).

(** [add.reduce]: the entries are added from the first to the last. *)
Definition fsum (a : list float) : float :=
  match a with
  | [] => 0%float
  | x :: r => fold_left PrimFloat.add r x
  end.

Definition mean (a : list float) : float :=
  (fsum a / Z2F (Z.of_nat (length a)))%float.

(** [var]: the mean of the squared deviations from the mean (no degrees of
    freedom removed); [std] is its square root. *)
Definition var (a : list float) : float :=
  let mu := mean a in
  mean (map (fun x => ((x - mu) * (x - mu))%float) a).

Definition std (a : list float) : float := PrimFloat.sqrt (var a).

Definition isnan (x : float) : bool := PrimFloat.is_nan x.

(** The inner product of two vectors, as [dot] computes one entry. *)
Definition dotp (a b : list float) : float :=
  fsum (map (fun p => (fst p * snd p)%float) (combine a b)).

(** An array of floats of rank 0 or 2, so that [rank(R) == 0] can be asked. *)
Inductive ndarray : Type :=
| Array0 (x : float)
| Array2 (rows : list (list float)).

Definition rank (a : ndarray) : Z :=
  match a with
  | Array0 _ => 0
  | Array2 _ => 2
  end.

(** [squeeze]: a 1 x 1 matrix becomes an array of rank 0. *)
Definition squeeze (c : list (list float)) : ndarray :=
  match c with
  | [[x]] => Array0 x
  | _ => Array2 c
  end.

(** [cov(x)] with the rows of [x] as variables: each row is centred on its
    mean, and the products of the centred rows are divided by the number of
    columns less one. *)
Definition cov (x : list (list float)) : ndarray :=
  let X := map (fun row => let mu := mean row in
                           map (fun v => (v - mu)%float) row) x in
  let N := match X with
           | [] => 0%nat
           | r :: _ => length r
           end in
  let fact := (Z2F (Z.of_nat N) - 1)%float in
  squeeze (map (fun a => map (fun b => (dotp a b / fact)%float) X) X).

(** [diag(c)] *)
Definition diag (c : list (list float)) : list float :=
  map (fun p => nth (fst p) (snd p) 0%float) (combine (seq 0 (length c)) c).

(** [corrcoef(x)], as NumPy had it when the script was written: a scalar
    covariance (one variable) gives the integer 1; otherwise each covariance
    is divided by the square root of the product of the two variances. *)
Definition corrcoef (x : list (list float)) : ndarray :=
  match cov x with
  | Array0 _ => Array0 1%float
  | Array2 c =>
      let d := diag c in
      Array2 (map (fun p =>
                     map (fun q => (fst q / PrimFloat.sqrt (snd p * snd q))%float)
                         (combine (fst p) d))
                  (combine c d))
  end.

(** [reshape(R,(1,1))] of an array of rank 0. *)
Definition reshape_1_1 (a : ndarray) : list (list float) :=
  match a with
  | Array0 x => [[x]]
  | Array2 rows => rows
  end.

(** A sparse column: its number of rows and its stored (row, value) pairs. *)
Record csc_column : Type := {
  csc_rows : Z;
  csc_data : list (Z * Z)
}.

(** [csc_matrix((data,(row,zeros)),shape=(n,1))] *)
Definition csc_matrix (data row : list Z) (n : Z) : csc_column :=
  {| csc_rows := n; csc_data := combine row data |}.

(** The value at a row: the stored values of that row added up, 0 when none
    is stored. *)
Definition csc_value (m : csc_column) (r : Z) : Z :=
  fold_right (fun e acc => if fst e =? r then snd e + acc else acc) 0
             (csc_data m).

(** [m[idx].todense()] for an index array: one dense value per index, under
    Python's index rule for the column's length.  No index is looked at
    before this call: the rule is all that stands between a candidate and
    the map. *)
Definition csc_getitem (m : csc_column) (idx : list Z) : result (list Z) :=
  mapM (fun i => j <- norm_index (csc_rows m) i ;; Ok (csc_value m j)) idx.

(** [a * ones(n)] for a one-dimensional [a]: broadcasting of shapes
    [(len a,)] and [(n,)]. *)
Definition mul_ones (a : list Z) (n : nat) : result (list Z) :=
  if (length a =? n)%nat then Ok a
  else if (length a =? 1)%nat then Ok (repeat (hd 0 a) n)
  else if (n =? 1)%nat then Ok a
  else ValueError.

(** [append(a, b, 1)] for two matrices given by their rows: the row counts
    must agree. *)
Definition append_axis1 (a b : list (list float)) : result (list (list float)) :=
  if (length a =? length b)%nat
  then Ok (map (fun p => fst p ++ snd p) (combine a b))
  else ValueError.

(** ** make_local_connectivity_scorr *)

(** The 27 offsets of the 3 x 3 x 3 neighbourhood, in the script's order. *)
Definition neighbors : list coord :=
  [(-1,-1,-1); (0,-1,-1); (1,-1,-1);
   (-1, 0,-1); (0, 0,-1); (1, 0,-1);
   (-1, 1,-1); (0, 1,-1); (1, 1,-1);
   (-1,-1, 0); (0,-1, 0); (1,-1, 0);
   (-1, 0, 0); (0, 0, 0); (1, 0, 0);
   (-1, 1, 0); (0, 1, 0); (1, 1, 0);
   (-1,-1, 1); (0,-1, 1); (1,-1, 1);
   (-1, 0, 1); (0, 0, 1); (1, 0, 1);
   (-1, 1, 1); (0, 1, 1); (1, 1, 1)].

(** What the two image files give the script: the mask's shape [msz] and its
    flattened data [mskdat = reshape(msk.data, prod(msz))]; the shape of the
    fMRI data, [sz = (sz_t, sz_xyz)]; its data reshaped to
    [sz[0] x prod(sz[1:])], one column (time course) per voxel; and the
    threshold. *)
Record inputs : Type := {
  msz : shape3;
  mskdat : list Z;
  sz_t : Z;
  sz_xyz : shape3;
  nim_data : list (list float);
  thresh : float
}.

(** The script's variables when the loop starts. [iv0] is [iv] as first
    computed from the mask, [iv] is [iv] after the zero-variance voxels are
    removed. *)
Record masked : Type := {
  iv0 : list Z;
  imdat : list (list float);
  vndx : list Z;
  iv : list Z;
  msk : csc_column
}.

(** A time course minus its mean over its standard deviation, NaN set to 0. *)
Definition zscore (col : list float) : list float :=
  let imdat_s := std col in
  let imdat_m := mean col in
  map (fun x => let v := ((x - imdat_m) / imdat_s)%float in
                if isnan v then 0%float else v) col.

(** [var(imdat,0) != 0], one truth value per column. *)
Definition var_nonzero (col : list float) : bool :=
  negb (var col =? 0)%float.

(** Lines 100 to 129: from the mask to the sparse index map. *)
Definition prepare (inp : inputs) : result masked :=
  let iv := nonzero (map nz (mskdat inp)) in
  imdat <- take (nim_data inp) iv ;;
  let imdat := map zscore imdat in
  let vndx := nonzero (map var_nonzero imdat) in
  iv' <- take iv vndx ;;
  let msk := csc_matrix (map (fun v => v + 1) vndx) iv' (prod3 (msz inp)) in
  Ok {| iv0 := iv; imdat := imdat; vndx := vndx; iv := iv'; msk := msk |}.

(** [indx_1dto3d(iv[i],sz[1:])+neighbors] *)
Definition ndx3d_of (seed : Z) (sz : shape3) : list coord :=
  let '(x, y, z) := indx_1dto3d seed sz in
  map (fun n : coord => let '(dx, dy, dz) := n in (x + dx, y + dy, z + dz))
      neighbors.

(** [dot(tc.T,imdat)/(sz[0]-1)], as the list of its rows. *)
Definition fc_map (tc imdat : list (list float)) (sz0 : Z) : list (list float) :=
  map (fun a => map (fun b => (dotp a b / Z2F (sz0 - 1))%float) imdat) tc.

(** [R[isnan(R)]=0] then [R[R<thresh]=0] *)
Definition nan_to_zero (x : float) : float :=
  if isnan x then 0%float else x.

Definition cut (t x : float) : float :=
  if (x <? t)%float then 0%float else x.

(** What one seed contributes. *)
Record emitted : Type := {
  e_i : list Z;
  e_j : list Z;
  e_w : list (list float)
}.

(** Everything one iteration computes up to the filtering of the candidates
    (lines 138 to 149). *)
Record neighborhood : Type := {
  n_ndx1d : list Z;     (* the flat indices of the kept candidates *)
  n_ondx1d : list Z;    (* their values in the mask map, less one *)
  n_nndx : list Z       (* where the seed is among them *)
}.

Definition assemble (inp : inputs) (st : masked) (i : nat) : result neighborhood :=
  let seed := nth i (iv st) 0 in
  let ndx3d := ndx3d_of seed (sz_xyz inp) in
  let ndx1d := flatN ndx3d (sz_xyz inp) in
  ondx1d <- csc_getitem (msk st) ndx1d ;;
  let kept := nonzero (map nz ondx1d) in
  ndx1d' <- take ndx1d kept ;;
  ondx1d' <- take ondx1d kept ;;
  let ondx1d' := map (fun v => v - 1) ondx1d' in
  let nndx := nonzero (map (Z.eqb seed) ndx1d') in
  Ok {| n_ndx1d := ndx1d'; n_ondx1d := ondx1d'; n_nndx := nndx |}.

(** The correlation matrix of one neighbourhood (lines 152 to 163). *)
Definition correlate (inp : inputs) (st : masked) (ondx1d : list Z)
  : result (list (list float)) :=
  tc <- take (imdat st) ondx1d ;;
  let fc := fc_map tc (imdat st) (sz_t inp) in
  let R := corrcoef fc in
  let R := if rank R =? 0 then Array2 (reshape_1_1 R) else R in
  let R := map (map nan_to_zero) (reshape_1_1 R) in
  Ok (map (map (cut (thresh inp))) R).

(** The body of the loop for seed number [i], up to the values appended. *)
Definition seed_step (inp : inputs) (st : masked) (i : nat) : result emitted :=
  nb <- assemble inp st i ;;
  R <- correlate inp st (n_ondx1d nb) ;;
  seedpos <- take (n_ondx1d nb) (n_nndx nb) ;;
  js <- mul_ones seedpos (length (n_ondx1d nb)) ;;
  ws <- take R (n_nndx nb) ;;
  Ok {| e_i := n_ondx1d nb; e_j := js; e_w := ws |}.

(** The three accumulators. *)
Record accum : Type := {
  sparse_i : list Z;
  sparse_j : list Z;
  sparse_w : list (list float)
}.

Definition accum0 : accum :=
  {| sparse_i := []; sparse_j := []; sparse_w := [[]] |}.

Definition append_step (acc : accum) (e : emitted) : result accum :=
  w <- append_axis1 (sparse_w acc) (e_w e) ;;
  Ok {| sparse_i := sparse_i acc ++ e_i e;
        sparse_j := sparse_j acc ++ e_j e;
        sparse_w := w |}.

Fixpoint loop (inp : inputs) (st : masked) (seeds : list nat) (acc : accum)
  : result accum :=
  match seeds with
  | [] => Ok acc
  | i :: rest =>
      e <- seed_step inp st i ;;
      acc' <- append_step acc e ;;
      loop inp st rest acc'
  end.

(** The accumulators when the loop ends. *)
Definition run (inp : inputs) : result accum :=
  st <- prepare inp ;;
  loop inp st (seq 0 (length (iv st))) accum0.

(** [outlist]: the three accumulators in one vector of floats. *)
Definition outlist (acc : accum) : list float :=
  map Z2F (sparse_i acc) ++ map Z2F (sparse_j acc) ++ concat (sparse_w acc).

(** The vector the script saves. *)
Definition make_local_connectivity_scorr (inp : inputs) : result (list float) :=
  acc <- run inp ;;
  Ok (outlist acc).

(** The flat indices of the 27 candidates of seed number [i]. *)
Definition candidates (inp : inputs) (st : masked) (i : nat) : list Z :=
  flatN (ndx3d_of (nth i (iv st) 0) (sz_xyz inp)) (sz_xyz inp).

(** Candidate [c] is kept with row entry [r]: the index is accepted by the
    map, and the value stored at the row it denotes is [r + 1], not 0. *)
Definition kept_as (inp : inputs) (st : masked) (c r : Z) : Prop :=
  exists c', norm_index (prod3 (msz inp)) c = Ok c' /\
             csc_value (msk st) c' = r + 1 /\ r + 1 <> 0.

(** The flat-index displacement of a stencil offset. *)
Definition offset (n : coord) (sz : shape3) : Z :=
  let '(dx, dy, dz) := n in dx * prod_1_3 sz + dy * sz_2 sz + dz.

Definition opposite (n : coord) : coord :=
  let '(dx, dy, dz) := n in (- dx, - dy, - dz).

(** ** Statements of the written specification that the script does not meet *)

(** "The row entry of a triplet is the neighbour's flat voxel index and the
    column entry is the seed's flat voxel index." *)
Definition rows_cols_are_flat_indices (inp : inputs) : Prop :=
  forall st i nb e,
    prepare inp = Ok st -> (i < length (iv st))%nat ->
    assemble inp st i = Ok nb -> seed_step inp st i = Ok e ->
    e_i e = n_ndx1d nb /\
    e_j e = repeat (nth i (iv st) 0) (length (e_i e)).


(** "The index map sends each retained voxel to its position in the final
    retained sequence plus one." *)
Definition msk_holds_final_positions (inp : inputs) : Prop :=
  forall st j v,
    prepare inp = Ok st -> nth_error (iv st) j = Some v ->
    csc_value (msk st) v = Z.of_nat j + 1.

(** "The normalised matrix has one column per voxel of the final retained
    set, column [j] holding the time course of [iv[j]]." *)
Definition imdat_has_final_columns (inp : inputs) : Prop :=
  forall st,
    prepare inp = Ok st ->
    length (imdat st) = length (iv st) /\
    forall j v, nth_error (iv st) j = Some v ->
      exists raw, getitem (nim_data inp) v = Ok raw /\
                  nth_error (imdat st) j = Some (zscore raw).

(** ** Example inputs *)

(** An array of [n] entries, [dflt] everywhere but at the listed positions. *)
Definition volume {A : Type} (n : nat) (dflt : A) (on : list (nat * A)) : list A :=
  map (fun k => match find (fun p => Nat.eqb (fst p) k) on with
                | Some p => snd p
                | None => dflt
                end) (seq 0 n).

(** A 3 x 3 x 5 volume whose mask holds voxels 21 and 22, the coordinates
    (1,1,1) and (1,1,2); the time course of voxel 21 is constant.  Every
    candidate of either voxel has a flat index between 0 and 44. *)
Definition constant_neighbour : inputs :=
  {| msz := (3, 3, 5);
     mskdat := volume 45 0 [(21%nat, 1); (22%nat, 1)];
     sz_t := 2;
     sz_xyz := (3, 3, 5);
     nim_data := volume 45 [0; 0]%float
                   [(21%nat, [1; 1]%float); (22%nat, [0; 1]%float)];
     thresh := 0.5%float |}.


(** Voxels 21, 22 and 23 of the same volume, three different time courses. *)
Definition three_voxels : inputs :=
  {| msz := (3, 3, 5);
     mskdat := volume 45 0 [(21%nat, 1); (22%nat, 1); (23%nat, 1)];
     sz_t := 3;
     sz_xyz := (3, 3, 5);
     nim_data := volume 45 [0; 0; 0]%float
                   [(21%nat, [1; 0; 0]%float); (22%nat, [0; 1; 0]%float);
                    (23%nat, [0; 0; 1]%float)];
     thresh := 0.5%float |}.

(** A 2 x 2 x 2 volume, every voxel in the mask, eight time courses of
    length 5, none of them constant. *)
Definition full_cube : inputs :=
  {| msz := (2, 2, 2);
     mskdat := [1; 1; 1; 1; 1; 1; 1; 1];
     sz_t := 5;
     sz_xyz := (2, 2, 2);
     nim_data := [[1; 0; 0; 0; 0]; [0; 1; 0; 0; 0]; [0; 0; 1; 0; 0];
                  [0; 0; 0; 1; 0]; [0; 0; 0; 0; 1]; [1; 1; 0; 0; 0];
                  [0; 1; 1; 0; 0]; [0; 0; 1; 1; 0]]%float;
     thresh := 0.5%float |}.

(** A 3 x 3 x 3 volume with an empty mask. *)
Definition empty_mask : inputs :=
  {| msz := (3, 3, 3);
     mskdat := repeat 0 27;
     sz_t := 2;
     sz_xyz := (3, 3, 3);
     nim_data := repeat [0; 1]%float 27;
     thresh := 0.5%float |}.

(** Every candidate of seed number [i] is a flat index of the volume: none is
    negative, none is at or past the number of rows of the map. *)
Definition candidates_in_volume (inp : inputs) (st : masked) (i : nat) : bool :=
  forallb (fun c => (0 <=? c) && (c <? prod3 (msz inp))) (candidates inp st i).

(** ** Further notions used by the properties *)

(** The centre of the stencil. *)
Definition origin : coord := (0, 0, 0).

(** A coordinate moved by a stencil offset. *)
Definition shift (c n : coord) : coord :=
  let '(x, y, z) := c in
  let '(dx, dy, dz) := n in (x + dx, y + dy, z + dz).

(** The voxel of flat index [v] has no coordinate on the border of the
    volume. *)
Definition interior (v : Z) (sz : shape3) : Prop :=
  let '(x, y, z) := indx_1dto3d v sz in
  let '(s0, s1, s2) := sz in
  1 <= x <= s0 - 2 /\ 1 <= y <= s1 - 2 /\ 1 <= z <= s2 - 2.

(** The same files read with another threshold. *)
Definition with_thresh (inp : inputs) (t : float) : inputs :=
  {| msz := msz inp;
     mskdat := mskdat inp;
     sz_t := sz_t inp;
     sz_xyz := sz_xyz inp;
     nim_data := nim_data inp;
     thresh := t |}.

(** Every candidate of seed number [i] is an index the map accepts. *)
Definition candidates_accepted (inp : inputs) (st : masked) (i : nat) : Prop :=
  Forall (fun c => - prod3 (msz inp) <= c < prod3 (msz inp))
         (candidates inp st i).

(** No offset of the stencil but its centre leaves the flat index where it
    is. *)
Definition no_alias (sz : shape3) : Prop :=
  forall n, In n neighbors -> offset n sz = 0 -> n = origin.

(** A single slice: a 5 x 5 x 1 volume with its centre voxel, of flat index
    12, in the mask.  The candidates of that voxel run from 5 to 19. *)
Definition single_slice : inputs :=
  {| msz := (5, 5, 1);
     mskdat := volume 25 0 [(12%nat, 1)];
     sz_t := 2;
     sz_xyz := (5, 5, 1);
     nim_data := volume 25 [0; 0]%float [(12%nat, [0; 1]%float)];
     thresh := 0.5%float |}.

(** A mask of 45 voxels over data of 27 voxels; voxel 30 is in the mask. *)
Definition mask_past_data : inputs :=
  {| msz := (3, 3, 5);
     mskdat := volume 45 0 [(30%nat, 1)];
     sz_t := 2;
     sz_xyz := (3, 3, 3);
     nim_data := repeat [0; 1]%float 27;
     thresh := 0.5%float |}.

(** [sz[1]] *)
Definition sz_1 (sz : shape3) : Z :=
  let '(_, s1, _) := sz in s1.

(** A function applied to the value of a computation that did not raise. *)
Definition rmap {A B : Type} (f : A -> B) (r : result A) : result B :=
  match r with
  | Ok a => Ok (f a)
  | IndexError => IndexError
  | ValueError => ValueError
  end.

(** The weights of one seed, and of the accumulators, cut at [t]. *)
Definition recut (t : float) (e : emitted) : emitted :=
  {| e_i := e_i e; e_j := e_j e; e_w := map (map (cut t)) (e_w e) |}.

Definition recut_accum (t : float) (acc : accum) : accum :=
  {| sparse_i := sparse_i acc;
     sparse_j := sparse_j acc;
     sparse_w := map (map (cut t)) (sparse_w acc) |}.

(** * Properties *)

(** ** Coordinates *)

Lemma flat1_eq x y z s0 s1 s2 :
  flat1 (x, y, z) (s0, s1, s2) = x * (s1 * s2) + y * s2 + z.
Proof. reflexivity. Qed.

Lemma flatN_map cs sz : flatN cs sz = map (fun c => flat1 c sz) cs.
Proof.
  unfold flatN; simpl. apply map_ext.
  intros [[r0 r1] r2]; reflexivity.
Qed.

Lemma to1d_to3d_any (i : Z) (sz : shape3) :
  flat1 (indx_1dto3d i sz) sz = i.
Proof.
  destruct sz as [[s0 s1] s2].
  unfold indx_1dto3d; cbn [prod_1_3 sz_2]. rewrite flat1_eq. lia.
Qed.

Lemma to3d_to1d (c : coord) (sz : shape3) :
  shape_pos sz -> in_bounds c sz -> indx_1dto3d (flat1 c sz) sz = c.
Proof.
  destruct sz as [[s0 s1] s2], c as [[x y] z].
  intros (_ & H1 & H2) (Hx & Hy & Hz).
  rewrite flat1_eq. unfold indx_1dto3d; cbn [prod_1_3 sz_2].
  assert (Hyz : 0 <= y * s2 + z < s1 * s2) by nia.
  assert (Ex : (x * (s1 * s2) + y * s2 + z) / (s1 * s2) = x).
  { symmetry. apply Z.div_unique with (r := y * s2 + z); [left; exact Hyz | lia]. }
  rewrite Ex.
  assert (Ey : (x * (s1 * s2) + y * s2 + z - x * (s1 * s2)) / s2 = y).
  { symmetry. apply Z.div_unique with (r := z); [left; exact Hz | lia]. }
  rewrite Ey. f_equal. lia.
Qed.

(** ** The monad *)

Lemma bind_Ok {A B : Type} (r : result A) (k : A -> result B) (b : B) :
  bind r k = Ok b -> exists a, r = Ok a /\ k a = Ok b.
Proof. destruct r; simpl; intros H; try discriminate. now exists a. Qed.

Ltac inv_bind H :=
  let x := fresh "x" in
  let E := fresh "E" in
  apply bind_Ok in H; destruct H as (x & E & H).

Ltac inv_Ok H := injection H as H; try subst.

Lemma mapM_Forall2 {A B : Type} (f : A -> result B) (l : list A) (bs : list B) :
  mapM f l = Ok bs -> Forall2 (fun a b => f a = Ok b) l bs.
Proof.
  revert bs; induction l as [|a l IH]; simpl; intros bs H.
  - inv_Ok H. constructor.
  - inv_bind H. inv_bind H. inv_Ok H. constructor; auto.
Qed.

Lemma Forall2_mapM {A B : Type} (f : A -> result B) (l : list A) (bs : list B) :
  Forall2 (fun a b => f a = Ok b) l bs -> mapM f l = Ok bs.
Proof.
  induction 1 as [|a b l bs Hab _ IH]; simpl; [reflexivity|].
  now rewrite Hab, IH.
Qed.

Lemma Forall2_nth_error_l {A B : Type} (R : A -> B -> Prop) l l' k a :
  Forall2 R l l' -> nth_error l k = Some a ->
  exists b, nth_error l' k = Some b /\ R a b.
Proof.
  intros H; revert k; induction H as [|x y l l' Hxy _ IH]; intros [|k] Hk;
    simpl in *; try discriminate.
  - inv_Ok Hk. eauto.
  - eauto.
Qed.

Lemma Forall2_nth_error_r {A B : Type} (R : A -> B -> Prop) l l' k b :
  Forall2 R l l' -> nth_error l' k = Some b ->
  exists a, nth_error l k = Some a /\ R a b.
Proof.
  intros H; revert k; induction H as [|x y l l' Hxy _ IH]; intros [|k] Hk;
    simpl in *; try discriminate.
  - inv_Ok Hk. eauto.
  - eauto.
Qed.

Lemma Forall2_In_r {A B : Type} (R : A -> B -> Prop) l l' b :
  Forall2 R l l' -> In b l' -> exists a, In a l /\ R a b.
Proof.
  induction 1 as [|x y l l' Hxy _ IH]; simpl; intros Hb; [easy|].
  destruct Hb as [<-|Hb]; [eauto|]. destruct (IH Hb) as (a & ? & ?); eauto.
Qed.

(** ** Indexing *)

Lemma norm_index_Ok n i j :
  norm_index n i = Ok j ->
  - n <= i < n /\ 0 <= j < n /\ (j = i \/ (i < 0 /\ j = i + n)).
Proof.
  unfold norm_index. intros H.
  destruct ((i <? - n) || (n <=? i)) eqn:E; [discriminate|].
  apply orb_false_elim in E as [E1 E2].
  apply Z.ltb_ge in E1. apply Z.leb_gt in E2. inv_Ok H.
  destruct (i <? 0) eqn:E3; [apply Z.ltb_lt in E3 | apply Z.ltb_ge in E3]; lia.
Qed.

Lemma norm_index_in_range n i : 0 <= i < n -> norm_index n i = Ok i.
Proof.
  intros H. unfold norm_index.
  replace (i <? - n) with false by (symmetry; apply Z.ltb_ge; lia).
  replace (n <=? i) with false by (symmetry; apply Z.leb_gt; lia).
  replace (i <? 0) with false by (symmetry; apply Z.ltb_ge; lia).
  reflexivity.
Qed.

Lemma norm_index_past n i : n <= i -> norm_index n i = @IndexError Z.
Proof.
  intros H. unfold norm_index.
  replace (n <=? i) with true by (symmetry; apply Z.leb_le; lia).
  now rewrite orb_true_r.
Qed.

Lemma norm_index_wrap n i : - n <= i < 0 -> norm_index n i = norm_index n (i + n).
Proof.
  intros H. rewrite (norm_index_in_range n (i + n)) by lia.
  unfold norm_index.
  replace (i <? - n) with false by (symmetry; apply Z.ltb_ge; lia).
  replace (n <=? i) with false by (symmetry; apply Z.leb_gt; lia).
  replace (i <? 0) with true by (symmetry; apply Z.ltb_lt; lia).
  reflexivity.
Qed.

Lemma getitem_nonneg {A : Type} (a : list A) i x :
  0 <= i -> getitem a i = Ok x -> nth_error a (Z.to_nat i) = Some x.
Proof.
  intros Hi H. unfold getitem in H. inv_bind H.
  apply norm_index_Ok in E. assert (x0 = i) by lia; subst x0.
  destruct (nth_error a (Z.to_nat i)); [now inv_Ok H | discriminate].
Qed.

Lemma nth_error_getitem {A : Type} (a : list A) i x :
  0 <= i -> nth_error a (Z.to_nat i) = Some x -> getitem a i = Ok x.
Proof.
  intros Hi H. unfold getitem.
  assert (Z.to_nat i < length a)%nat by (apply nth_error_Some; congruence).
  rewrite norm_index_in_range by lia. simpl. now rewrite H.
Qed.

Lemma take_Forall2 {A : Type} (a : list A) idx l :
  take a idx = Ok l -> Forall2 (fun i x => getitem a i = Ok x) idx l.
Proof. apply mapM_Forall2. Qed.

Lemma take_length {A : Type} (a : list A) idx l :
  take a idx = Ok l -> length l = length idx.
Proof. intros H. symmetry. eapply Forall2_length, take_Forall2, H. Qed.

(** ** nonzero *)

Lemma nonzero_from_In a : forall s k,
  In k (nonzero_from s a) <->
  s <= k /\ nth_error a (Z.to_nat (k - s)) = Some true.
Proof.
  induction a as [|b a IH]; intros s k; simpl.
  - split; [easy|]. intros [_ H]. now destruct (Z.to_nat (k - s)).
  - assert (Hstep : In k (nonzero_from (s + 1) a) <->
                    s < k /\ nth_error (b :: a) (Z.to_nat (k - s)) = Some true).
    { rewrite IH. split; intros [H1 H2]; split; try lia.
      - replace (Z.to_nat (k - s)) with (S (Z.to_nat (k - (s + 1)))) by lia.
        exact H2.
      - replace (Z.to_nat (k - s)) with (S (Z.to_nat (k - (s + 1)))) in H2 by lia.
        exact H2. }
    destruct b; simpl; rewrite Hstep.
    + split.
      * intros [<-|[H1 H2]]; [|split; [lia|exact H2]].
        split; [lia|]. now rewrite Z.sub_diag.
      * intros [H1 H2]. destruct (Z.eq_dec s k) as [->|Hne]; [now left|].
        right; split; [lia|exact H2].
    + split.
      * intros [H1 H2]; split; [lia|exact H2].
      * intros [H1 H2]. split; [|exact H2].
        destruct (Z.eq_dec s k) as [->|Hne]; [|lia].
        rewrite Z.sub_diag in H2. discriminate.
Qed.

Lemma nonzero_In a k :
  In k (nonzero a) <-> 0 <= k /\ nth_error a (Z.to_nat k) = Some true.
Proof. unfold nonzero. rewrite nonzero_from_In. now rewrite Z.sub_0_r. Qed.

Lemma nonzero_from_NoDup a : forall s, NoDup (nonzero_from s a).
Proof.
  induction a as [|b a IH]; intros s; simpl; [constructor|].
  destruct b; [|apply IH]. constructor; [|apply IH].
  rewrite nonzero_from_In. lia.
Qed.

Lemma nonzero_NoDup a : NoDup (nonzero a).
Proof. apply nonzero_from_NoDup. Qed.

Lemma nonzero_from_all_false a : forall s,
  Forall (fun b => b = false) a -> nonzero_from s a = [].
Proof.
  induction a as [|b a IH]; intros s H; simpl; [reflexivity|].
  inversion H; subst. now apply IH.
Qed.

(** ** The sparse index map *)

Lemma csc_value_combine (rows vals : list Z) (n r : Z) :
  NoDup rows -> length rows = length vals ->
  (forall j, nth_error rows j = Some r ->
             nth_error vals j = Some (csc_value (csc_matrix vals rows n) r)) /\
  (~ In r rows -> csc_value (csc_matrix vals rows n) r = 0).
Proof.
  unfold csc_value, csc_matrix; simpl.
  intros Hnd; revert vals.
  induction Hnd as [|a rows Ha Hnd IH]; intros vals Hlen.
  - split; [intros [|j]; discriminate | reflexivity].
  - destruct vals as [|v vals]; [discriminate|]. simpl in Hlen.
    injection Hlen as Hlen. destruct (IH vals Hlen) as [IH1 IH2].
    simpl. destruct (Z.eqb_spec a r) as [->|Hne].
    + split.
      * intros [|j] Hj; simpl in *.
        -- rewrite (IH2 Ha). f_equal. lia.
        -- exfalso. apply Ha. eapply nth_error_In, Hj.
      * intros Hn. exfalso. apply Hn. now left.
    + split.
      * intros [|j] Hj; simpl in *; [congruence|]. now apply IH1.
      * intros Hn. apply IH2. intros Hin. apply Hn. now right.
Qed.

(** ** From the mask to the index map *)

Lemma prepare_inv inp st :
  prepare inp = Ok st ->
  iv0 st = nonzero (map nz (mskdat inp)) /\
  (exists raw, take (nim_data inp) (iv0 st) = Ok raw /\
               imdat st = map zscore raw) /\
  vndx st = nonzero (map var_nonzero (imdat st)) /\
  take (iv0 st) (vndx st) = Ok (iv st) /\
  msk st = csc_matrix (map (fun v => v + 1) (vndx st)) (iv st) (prod3 (msz inp)).
Proof.
  unfold prepare. intros H. inv_bind H. inv_bind H. inv_Ok H. simpl.
  repeat split; eauto.
Qed.

Lemma imdat_length inp st :
  prepare inp = Ok st -> length (imdat st) = length (iv0 st).
Proof.
  intros H. destruct (prepare_inv _ _ H) as (_ & (raw & Hraw & ->) & _).
  rewrite length_map. now apply take_length in Hraw.
Qed.

Lemma iv0_In inp st v :
  prepare inp = Ok st ->
  In v (iv0 st) <->
  0 <= v /\ exists mv, nth_error (mskdat inp) (Z.to_nat v) = Some mv /\ mv <> 0.
Proof.
  intros H. destruct (prepare_inv _ _ H) as (-> & _).
  rewrite nonzero_In, nth_error_map. split; intros [Hv Hm]; split; auto.
  - destruct (nth_error (mskdat inp) (Z.to_nat v)) as [mv|]; [|discriminate].
    exists mv; split; [reflexivity|]. simpl in Hm. injection Hm as Hm.
    unfold nz in Hm. apply negb_true_iff, Z.eqb_neq in Hm. exact Hm.
  - destruct Hm as (mv & -> & Hmv). simpl. f_equal.
    unfold nz. now apply negb_true_iff, Z.eqb_neq.
Qed.

Lemma iv0_NoDup inp st : prepare inp = Ok st -> NoDup (iv0 st).
Proof.
  intros H. destruct (prepare_inv _ _ H) as (-> & _). apply nonzero_NoDup.
Qed.

Lemma vndx_NoDup inp st : prepare inp = Ok st -> NoDup (vndx st).
Proof.
  intros H. destruct (prepare_inv _ _ H) as (_ & _ & -> & _). apply nonzero_NoDup.
Qed.

Lemma iv_length inp st : prepare inp = Ok st -> length (iv st) = length (vndx st).
Proof.
  intros H. destruct (prepare_inv _ _ H) as (_ & _ & _ & Ht & _).
  now apply take_length in Ht.
Qed.

(** Entry [j] of the final [iv] is the entry of the first [iv] at position
    [vndx[j]], and the normalised time course at that position passed the
    variance test. *)
Lemma iv_nth inp st j v :
  prepare inp = Ok st -> nth_error (iv st) j = Some v ->
  exists p col, nth_error (vndx st) j = Some p /\ 0 <= p /\
                nth_error (iv0 st) (Z.to_nat p) = Some v /\
                nth_error (imdat st) (Z.to_nat p) = Some col /\
                var_nonzero col = true.
Proof.
  intros H Hj. destruct (prepare_inv _ _ H) as (_ & _ & Hv & Ht & _).
  apply take_Forall2 in Ht.
  destruct (Forall2_nth_error_r _ _ _ _ _ Ht Hj) as (p & Hp & Hg).
  assert (Hin : In p (vndx st)) by (eapply nth_error_In, Hp).
  rewrite Hv, nonzero_In, nth_error_map in Hin. destruct Hin as [Hp0 Hc].
  destruct (nth_error (imdat st) (Z.to_nat p)) as [col|] eqn:Ecol; [|discriminate].
  exists p, col. repeat split; auto.
  - now apply getitem_nonneg.
  - simpl in Hc. congruence.
Qed.

Lemma vndx_nth inp st j p :
  prepare inp = Ok st -> nth_error (vndx st) j = Some p ->
  exists v, nth_error (iv st) j = Some v.
Proof.
  intros H Hj. apply iv_length in H.
  assert (j < length (iv st))%nat.
  { rewrite H. apply nth_error_Some. congruence. }
  destruct (nth_error (iv st) j) eqn:E; [eauto|].
  apply nth_error_None in E. lia.
Qed.

Lemma iv_In_iv0 inp st v : prepare inp = Ok st -> In v (iv st) -> In v (iv0 st).
Proof.
  intros H Hin. apply In_nth_error in Hin as [j Hj].
  destruct (iv_nth _ _ _ _ H Hj) as (p & col & _ & _ & Hp & _).
  eapply nth_error_In, Hp.
Qed.

Lemma iv_NoDup inp st : prepare inp = Ok st -> NoDup (iv st).
Proof.
  intros H. apply NoDup_nth_error. intros j1 j2 Hj1 E.
  destruct (nth_error (iv st) j1) as [v|] eqn:E1;
    [|apply nth_error_None in E1; lia].
  symmetry in E.
  destruct (iv_nth _ _ _ _ H E1) as (p1 & _ & Hp1 & Hp10 & Hv1 & _).
  destruct (iv_nth _ _ _ _ H E) as (p2 & _ & Hp2 & Hp20 & Hv2 & _).
  pose proof (iv0_NoDup _ _ H) as Hnd0.
  assert (Z.to_nat p1 = Z.to_nat p2).
  { eapply (proj1 (NoDup_nth_error (iv0 st))); eauto.
    - apply nth_error_Some. congruence.
    - congruence. }
  assert (p1 = p2) by lia. subst p2.
  pose proof (vndx_NoDup _ _ H) as Hnd.
  eapply (proj1 (NoDup_nth_error (vndx st))); eauto.
  - apply nth_error_Some. congruence.
  - congruence.
Qed.

(** The map's value at a retained voxel is its [vndx] entry plus one; its
    value at any other row is 0. *)
Lemma msk_value_retained inp st j v :
  prepare inp = Ok st -> nth_error (iv st) j = Some v ->
  exists p, nth_error (vndx st) j = Some p /\ csc_value (msk st) v = p + 1.
Proof.
  intros H Hj. destruct (prepare_inv _ _ H) as (_ & _ & _ & _ & ->).
  destruct (iv_nth _ _ _ _ H Hj) as (p & _ & Hp & _).
  exists p; split; [exact Hp|].
  destruct (csc_value_combine (iv st) (map (fun v => v + 1) (vndx st))
              (prod3 (msz inp)) v) as [Hc _].
  - now apply iv_NoDup with inp.
  - rewrite length_map. now apply iv_length with inp.
  - specialize (Hc j Hj). rewrite nth_error_map, Hp in Hc. simpl in Hc. congruence.
Qed.

Lemma msk_value_absent inp st v :
  prepare inp = Ok st -> ~ In v (iv st) -> csc_value (msk st) v = 0.
Proof.
  intros H Hn. destruct (prepare_inv _ _ H) as (_ & _ & _ & _ & ->).
  apply csc_value_combine; auto.
  - now apply iv_NoDup with inp.
  - rewrite length_map. now apply iv_length with inp.
Qed.

Lemma In_dec_Z (v : Z) (l : list Z) : In v l \/ ~ In v l.
Proof. destruct (in_dec Z.eq_dec v l); auto. Qed.

Lemma msk_value_nonzero inp st v :
  prepare inp = Ok st -> csc_value (msk st) v <> 0 ->
  exists j p, nth_error (iv st) j = Some v /\ nth_error (vndx st) j = Some p /\
              0 <= p /\ nth_error (iv0 st) (Z.to_nat p) = Some v /\
              csc_value (msk st) v = p + 1.
Proof.
  intros H Hv. destruct (In_dec_Z v (iv st)) as [Hin|Hn].
  - apply In_nth_error in Hin as [j Hj].
    destruct (msk_value_retained _ _ _ _ H Hj) as (p & Hp & Hval).
    destruct (iv_nth _ _ _ _ H Hj) as (p' & _ & Hp' & Hp0 & Hv0 & _).
    assert (p' = p) by congruence. subst p'.
    exists j, p. auto.
  - exfalso. apply Hv. now apply msk_value_absent with inp.
Qed.

(** ** The neighbourhood of one seed *)

Lemma take_pair {A B : Type} (R : A -> B -> Prop) a b idx a' b' :
  Forall2 R a b -> Forall (fun k => 0 <= k) idx ->
  take a idx = Ok a' -> take b idx = Ok b' -> Forall2 R a' b'.
Proof.
  intros HR Hidx; revert a' b'.
  induction Hidx as [|k idx Hk _ IH]; simpl; intros a' b' Ha Hb.
  - unfold take in *; simpl in *. inv_Ok Ha. inv_Ok Hb. constructor.
  - unfold take in *; simpl in *.
    inv_bind Ha. inv_bind Ha. inv_Ok Ha. inv_bind Hb. inv_bind Hb. inv_Ok Hb.
    constructor; [|now apply IH].
    apply getitem_nonneg in E; auto. apply getitem_nonneg in E1; auto.
    destruct (Forall2_nth_error_l _ _ _ _ _ HR E) as (y & Hy & Hxy).
    congruence.
Qed.

Lemma take_In {A : Type} (a : list A) idx l x :
  take a idx = Ok l -> In x l -> exists k, In k idx /\ getitem a k = Ok x.
Proof.
  intros H Hx. apply take_Forall2 in H.
  exact (Forall2_In_r _ _ _ _ H Hx).
Qed.

Lemma take_covers {A : Type} (a : list A) idx l k x :
  take a idx = Ok l -> In k idx -> getitem a k = Ok x -> In x l.
Proof.
  intros H Hk Hx. apply take_Forall2 in H.
  apply In_nth_error in Hk as [t Ht].
  destruct (Forall2_nth_error_l _ _ _ _ _ H Ht) as (y & Hy & Hg).
  assert (y = x) by congruence. subst. eapply nth_error_In, Hy.
Qed.

Lemma nonzero_nonneg a : Forall (fun k => 0 <= k) (nonzero a).
Proof. apply Forall_forall. intros k Hk. now apply nonzero_In in Hk. Qed.

Lemma take_nonzero_true {A : Type} (f : A -> bool) a l :
  take a (nonzero (map f a)) = Ok l -> Forall (fun x => f x = true) l.
Proof.
  intros H. apply Forall_forall. intros x Hx.
  destruct (take_In _ _ _ _ H Hx) as (k & Hk & Hg).
  apply nonzero_In in Hk as [Hk0 Hk]. apply getitem_nonneg in Hg; auto.
  rewrite nth_error_map, Hg in Hk. simpl in Hk. congruence.
Qed.

Lemma msk_rows inp st : prepare inp = Ok st -> csc_rows (msk st) = prod3 (msz inp).
Proof. intros H. now destruct (prepare_inv _ _ H) as (_ & _ & _ & _ & ->). Qed.

Lemma assemble_inv inp st i nb :
  assemble inp st i = Ok nb ->
  exists ondx o,
    csc_getitem (msk st) (candidates inp st i) = Ok ondx /\
    take (candidates inp st i) (nonzero (map nz ondx)) = Ok (n_ndx1d nb) /\
    take ondx (nonzero (map nz ondx)) = Ok o /\
    n_ondx1d nb = map (fun v => v - 1) o /\
    n_nndx nb = nonzero (map (Z.eqb (nth i (iv st) 0)) (n_ndx1d nb)).
Proof.
  unfold assemble. fold (candidates inp st i). intros H.
  inv_bind H. inv_bind H. inv_bind H. inv_Ok H. simpl.
  exists x, x1. auto.
Qed.

Lemma csc_getitem_Forall2 m idx vals :
  csc_getitem m idx = Ok vals ->
  Forall2 (fun c v => exists c', norm_index (csc_rows m) c = Ok c' /\
                                 v = csc_value m c') idx vals.
Proof.
  intros H. apply mapM_Forall2 in H.
  eapply Forall2_impl; [|exact H]. simpl. intros c v Hc.
  inv_bind Hc. inv_Ok Hc. eauto.
Qed.

Lemma Forall2_and_r {A B : Type} (R : A -> B -> Prop) (P : B -> Prop) l l' :
  Forall2 R l l' -> Forall P l' -> Forall2 (fun a b => R a b /\ P b) l l'.
Proof.
  induction 1; intros HP; constructor; inversion HP; subst; auto.
Qed.

Lemma Forall2_map_r {A B C : Type} (R : A -> C -> Prop) (f : B -> C) l l' :
  Forall2 (fun a b => R a (f b)) l l' -> Forall2 R l (map f l').
Proof. induction 1; simpl; constructor; auto. Qed.

Lemma assemble_kept inp st i nb :
  prepare inp = Ok st -> assemble inp st i = Ok nb ->
  Forall2 (kept_as inp st) (n_ndx1d nb) (n_ondx1d nb).
Proof.
  intros Hp H. destruct (assemble_inv _ _ _ _ H) as (ondx & o & Hg & Hc & Ho & -> & _).
  apply csc_getitem_Forall2 in Hg. rewrite (msk_rows _ _ Hp) in Hg.
  pose proof (take_pair _ _ _ _ _ _ Hg (nonzero_nonneg _) Hc Ho) as HF.
  pose proof (take_nonzero_true _ _ _ Ho) as Hnz.
  apply Forall2_map_r.
  eapply Forall2_impl; [|exact (Forall2_and_r _ _ _ _ HF Hnz)].
  simpl. intros c v [(c' & Hc' & ->) Hv]. exists c'. split; [exact Hc'|].
  unfold nz in Hv. apply negb_true_iff, Z.eqb_neq in Hv.
  split; [lia|]. now replace (csc_value (msk st) c' - 1 + 1) with (csc_value (msk st) c') by lia.
Qed.

Lemma assemble_candidates_ok inp st i nb :
  prepare inp = Ok st -> assemble inp st i = Ok nb ->
  Forall (fun c => exists c', norm_index (prod3 (msz inp)) c = Ok c')
         (candidates inp st i).
Proof.
  intros Hp H. destruct (assemble_inv _ _ _ _ H) as (ondx & o & Hg & _).
  apply csc_getitem_Forall2 in Hg. rewrite (msk_rows _ _ Hp) in Hg.
  apply Forall_forall. intros c Hc. apply In_nth_error in Hc as [k Hk].
  destruct (Forall2_nth_error_l _ _ _ _ _ Hg Hk) as (v & _ & c' & Hc' & _).
  eauto.
Qed.

Lemma assemble_sub inp st i nb :
  assemble inp st i = Ok nb ->
  Forall (fun c => In c (candidates inp st i)) (n_ndx1d nb).
Proof.
  intros H. destruct (assemble_inv _ _ _ _ H) as (ondx & o & _ & Hc & _).
  apply Forall_forall. intros c Hin.
  destruct (take_In _ _ _ _ Hc Hin) as (k & Hk & Hg).
  apply nonzero_In in Hk as [Hk0 _]. apply getitem_nonneg in Hg; auto.
  eapply nth_error_In, Hg.
Qed.

Lemma assemble_lengths inp st i nb :
  assemble inp st i = Ok nb -> length (n_ondx1d nb) = length (n_ndx1d nb).
Proof.
  intros H. destruct (assemble_inv _ _ _ _ H) as (ondx & o & _ & Hc & Ho & -> & _).
  rewrite length_map. apply take_length in Hc, Ho. congruence.
Qed.

(** A kept candidate denotes a voxel of the final [iv]; its row entry is that
    voxel's position in the first [iv]. *)
Lemma kept_as_retained inp st c r :
  prepare inp = Ok st -> kept_as inp st c r ->
  exists c' j, norm_index (prod3 (msz inp)) c = Ok c' /\
               nth_error (iv st) j = Some c' /\
               nth_error (vndx st) j = Some r /\ 0 <= r /\
               nth_error (iv0 st) (Z.to_nat r) = Some c'.
Proof.
  intros Hp (c' & Hc' & Hv & Hnz).
  destruct (msk_value_nonzero inp st c' Hp) as (j & p & Hj & Hpj & Hp0 & Hi0 & Hval).
  { now rewrite Hv. }
  assert (p = r) by lia. subst p. exists c', j. auto.
Qed.

(** ** The loop *)

Lemma seed_step_inv inp st i e :
  seed_step inp st i = Ok e ->
  exists nb R seedpos,
    assemble inp st i = Ok nb /\
    correlate inp st (n_ondx1d nb) = Ok R /\
    take (n_ondx1d nb) (n_nndx nb) = Ok seedpos /\
    mul_ones seedpos (length (n_ondx1d nb)) = Ok (e_j e) /\
    take R (n_nndx nb) = Ok (e_w e) /\
    e_i e = n_ondx1d nb.
Proof.
  unfold seed_step. intros H.
  inv_bind H. inv_bind H. inv_bind H. inv_bind H. inv_bind H. inv_Ok H. simpl.
  exists x, x0, x1. repeat split; auto.
Qed.

Lemma append_step_inv acc e acc' :
  append_step acc e = Ok acc' ->
  length (sparse_w acc) = length (e_w e) /\
  sparse_i acc' = sparse_i acc ++ e_i e /\
  sparse_j acc' = sparse_j acc ++ e_j e /\
  sparse_w acc' = map (fun p => fst p ++ snd p) (combine (sparse_w acc) (e_w e)).
Proof.
  unfold append_step, append_axis1. intros H. inv_bind H.
  destruct (Nat.eqb_spec (length (sparse_w acc)) (length (e_w e))) as [El|];
    [|discriminate].
  inv_Ok E. inv_Ok H. simpl. auto.
Qed.

Lemma length_one {A : Type} (l : list A) : length l = 1%nat -> exists x, l = [x].
Proof. destruct l as [|x [|y l]]; try discriminate. eauto. Qed.

Lemma loop_inv inp st seeds : forall acc acc',
  length (sparse_w acc) = 1%nat ->
  loop inp st seeds acc = Ok acc' ->
  exists es,
    Forall2 (fun i e => seed_step inp st i = Ok e /\ length (e_w e) = 1%nat)
            seeds es /\
    sparse_i acc' = sparse_i acc ++ concat (map e_i es) /\
    sparse_j acc' = sparse_j acc ++ concat (map e_j es) /\
    concat (sparse_w acc') =
      concat (sparse_w acc) ++ concat (map (fun e => concat (e_w e)) es).
Proof.
  induction seeds as [|i seeds IH]; simpl; intros acc acc' Hlen H.
  - inv_Ok H. exists []. simpl. rewrite !app_nil_r. auto.
  - inv_bind H. inv_bind H.
    destruct (append_step_inv _ _ _ E0) as (Hl & Hi & Hj & Hw).
    assert (Hew : length (e_w x) = 1%nat) by congruence.
    destruct (length_one _ Hlen) as (w0 & Ew0).
    destruct (length_one _ Hew) as (w1 & Ew1).
    rewrite Ew0, Ew1 in Hw. simpl in Hw.
    destruct (IH x0 acc') as (es & HF & Hi' & Hj' & Hw'); auto.
    { now rewrite Hw. }
    exists (x :: es). simpl. repeat split.
    + constructor; auto.
    + rewrite Hi', Hi. now rewrite <- app_assoc.
    + rewrite Hj', Hj. now rewrite <- app_assoc.
    + rewrite Hw', Hw, Ew0, Ew1. simpl. rewrite !app_nil_r.
      now rewrite <- app_assoc.
Qed.

Lemma run_inv inp acc :
  run inp = Ok acc ->
  exists st es,
    prepare inp = Ok st /\
    Forall2 (fun i e => seed_step inp st i = Ok e /\ length (e_w e) = 1%nat)
            (seq 0 (length (iv st))) es /\
    sparse_i acc = concat (map e_i es) /\
    sparse_j acc = concat (map e_j es) /\
    concat (sparse_w acc) = concat (map (fun e => concat (e_w e)) es).
Proof.
  unfold run. intros H. inv_bind H.
  destruct (loop_inv _ _ _ accum0 acc eq_refl H) as (es & HF & Hi & Hj & Hw).
  exists x, es. auto.
Qed.

Lemma run_seed inp acc st i :
  run inp = Ok acc -> prepare inp = Ok st -> (i < length (iv st))%nat ->
  exists e, seed_step inp st i = Ok e /\ length (e_w e) = 1%nat /\
            incl (e_i e) (sparse_i acc) /\ incl (e_j e) (sparse_j acc) /\
            incl (concat (e_w e)) (concat (sparse_w acc)).
Proof.
  intros H Hp Hi. destruct (run_inv _ _ H) as (st' & es & Hp' & HF & Ei & Ej & Ew).
  assert (st' = st) by congruence. subst st'.
  assert (Hn : nth_error (seq 0 (length (iv st))) i = Some i).
  { rewrite nth_error_seq. destruct (Nat.ltb_spec i (length (iv st))); [reflexivity|lia]. }
  destruct (Forall2_nth_error_l _ _ _ _ _ HF Hn) as (e & He & Hs & Hl).
  apply nth_error_In in He.
  exists e. repeat split; auto.
  - rewrite Ei. intros x Hx. apply in_concat. exists (e_i e). split; [|exact Hx].
    now apply in_map.
  - rewrite Ej. intros x Hx. apply in_concat. exists (e_j e). split; [|exact Hx].
    now apply in_map.
  - rewrite Ew. intros x Hx. apply in_concat. exists (concat (e_w e)).
    split; [|exact Hx]. now apply (in_map (fun e => concat (e_w e))).
Qed.

(** ** Correlation and threshold *)

Lemma reshape_rank R :
  reshape_1_1 (if rank R =? 0 then Array2 (reshape_1_1 R) else R) = reshape_1_1 R.
Proof. now destruct R. Qed.

Lemma correlate_inv inp st ondx R :
  correlate inp st ondx = Ok R ->
  exists tc,
    take (imdat st) ondx = Ok tc /\
    R = map (map (cut (thresh inp)))
          (map (map nan_to_zero)
             (reshape_1_1 (corrcoef (fc_map tc (imdat st) (sz_t inp))))).
Proof.
  unfold correlate. intros H. inv_bind H. inv_Ok H.
  exists x. split; [exact E|]. now rewrite reshape_rank.
Qed.

Lemma correlate_entries inp st ondx R :
  correlate inp st ondx = Ok R ->
  Forall (Forall (fun w => exists x, w = cut (thresh inp) (nan_to_zero x))) R.
Proof.
  intros H. destruct (correlate_inv _ _ _ _ H) as (tc & _ & ->).
  rewrite map_map. apply Forall_forall. intros row Hrow.
  apply in_map_iff in Hrow as (row0 & <- & _).
  apply Forall_forall. intros w Hw. rewrite map_map in Hw.
  apply in_map_iff in Hw as (x & <- & _). eauto.
Qed.








(** ** The candidates of a seed *)

Lemma candidates_offsets inp st i :
  candidates inp st i =
  map (fun n => nth i (iv st) 0 + offset n (sz_xyz inp)) neighbors.
Proof.
  unfold candidates, ndx3d_of. rewrite flatN_map.
  set (seed := nth i (iv st) 0). set (sz := sz_xyz inp).
  pose proof (to1d_to3d_any seed sz) as Hs.
  destruct (indx_1dto3d seed sz) as [[x y] z].
  rewrite map_map. apply map_ext. intros [[dx dy] dz].
  destruct sz as [[s0 s1] s2]. rewrite flat1_eq in *.
  unfold offset; cbn [prod_1_3 sz_2]. lia.
Qed.

Lemma neighbors_opposite n : In n neighbors -> In (opposite n) neighbors.
Proof.
  unfold neighbors. intros H.
  repeat (destruct H as [<-|H]; [cbv; tauto|]). destruct H.
Qed.

Lemma offset_opposite n sz : offset (opposite n) sz = - offset n sz.
Proof. destruct n as [[dx dy] dz]. unfold offset, opposite. lia. Qed.

Lemma candidates_mirror inp st i c :
  In c (candidates inp st i) ->
  In (2 * nth i (iv st) 0 - c) (candidates inp st i).
Proof.
  rewrite candidates_offsets. intros H.
  apply in_map_iff in H as (n & <- & Hn).
  apply in_map_iff. exists (opposite n). split.
  - rewrite offset_opposite. lia.
  - now apply neighbors_opposite.
Qed.

Lemma candidates_seed inp st i :
  nth_error (candidates inp st i) 13 = Some (nth i (iv st) 0).
Proof.
  rewrite candidates_offsets. unfold neighbors. simpl. f_equal.
  unfold offset. lia.
Qed.

Lemma iv_nonneg inp st j v :
  prepare inp = Ok st -> nth_error (iv st) j = Some v -> 0 <= v.
Proof.
  intros H Hj. apply nth_error_In in Hj.
  apply (iv_In_iv0 _ _ _ H) in Hj. now apply (iv0_In _ _ _ H) in Hj.
Qed.

(** No candidate of a completed neighbourhood reaches the seed through the
    wrap of a negative index: its mirror image would be past the end. *)
Lemma no_wrap_to_seed inp st i nb v c :
  prepare inp = Ok st -> assemble inp st i = Ok nb ->
  nth_error (iv st) i = Some v ->
  In c (candidates inp st i) ->
  norm_index (prod3 (msz inp)) c = Ok v -> c = v.
Proof.
  intros Hp Ha Hv Hc Hn.
  pose proof (iv_nonneg _ _ _ _ Hp Hv) as Hv0.
  assert (Es : nth i (iv st) 0 = v) by (now apply nth_error_nth).
  apply norm_index_Ok in Hn as (Hr & _ & [E|[Hneg E]]); [congruence|].
  exfalso. apply candidates_mirror in Hc. rewrite Es in Hc.
  pose proof (assemble_candidates_ok _ _ _ _ Hp Ha) as Hok.
  rewrite Forall_forall in Hok. destruct (Hok _ Hc) as (c' & Hc').
  apply norm_index_Ok in Hc'. lia.
Qed.

(** ** What a completed seed appends *)

Lemma nonzero_singleton bs z :
  nonzero bs = [z] ->
  0 <= z /\ nth_error bs (Z.to_nat z) = Some true /\
  forall k, nth_error bs k = Some true -> k = Z.to_nat z.
Proof.
  intros H.
  assert (Hz : In z (nonzero bs)) by (rewrite H; now left).
  apply nonzero_In in Hz as [Hz0 Hz]. repeat split; auto.
  intros k Hk.
  assert (Hin : In (Z.of_nat k) (nonzero bs)).
  { apply nonzero_In. split; [lia|]. now rewrite Nat2Z.id. }
  rewrite H in Hin. destruct Hin as [Hin|[]]. lia.
Qed.

Lemma nth_error_eqb_true (s : Z) l k :
  nth_error (map (Z.eqb s) l) k = Some true <-> nth_error l k = Some s.
Proof.
  rewrite nth_error_map. destruct (nth_error l k) as [c|]; simpl; [|easy].
  destruct (Z.eqb_spec s c); split; intros H; congruence.
Qed.

Lemma mul_ones_one p n js : mul_ones [p] n = Ok js -> js = repeat p n.
Proof.
  unfold mul_ones. simpl. destruct n as [|[|n]]; simpl; intros H; now inv_Ok H.
Qed.

Lemma mul_ones_incl a n js : mul_ones a n = Ok js -> incl js a.
Proof.
  unfold mul_ones. intros H.
  destruct (length a =? n)%nat; [inv_Ok H; apply incl_refl|].
  destruct (Nat.eqb_spec (length a) 1) as [E|_].
  - inv_Ok H. destruct (length_one _ E) as (x & ->). simpl.
    intros y Hy. apply repeat_spec in Hy. subst. now left.
  - destruct (n =? 1)%nat; [inv_Ok H; apply incl_refl | discriminate].
Qed.

(** The seed of a completed iteration is kept once, at some position [k0] of
    its neighbourhood; the row entry there is the seed's [vndx] entry [p];
    every column entry is [p]; and no other row entry is [p]. *)
Lemma seed_step_self inp st i e v :
  prepare inp = Ok st -> nth_error (iv st) i = Some v ->
  seed_step inp st i = Ok e -> length (e_w e) = 1%nat ->
  exists nb p k0 R,
    assemble inp st i = Ok nb /\ e_i e = n_ondx1d nb /\
    nth_error (vndx st) i = Some p /\
    n_nndx nb = [Z.of_nat k0] /\
    nth_error (n_ndx1d nb) k0 = Some v /\
    e_j e = repeat p (length (e_i e)) /\
    (forall k, nth_error (e_i e) k = Some p <-> k = k0) /\
    correlate inp st (n_ondx1d nb) = Ok R /\
    take R [Z.of_nat k0] = Ok (e_w e).
Proof.
  intros Hp Hv Hs Hw.
  destruct (seed_step_inv _ _ _ _ Hs) as (nb & R & seedpos & Ha & Hc & Hsp & Hj & Hr & Hi).
  assert (Es : nth i (iv st) 0 = v) by (now apply nth_error_nth).
  destruct (msk_value_retained _ _ _ _ Hp Hv) as (p & Hpi & Hval).
  pose proof (iv_nonneg _ _ _ _ Hp Hv) as Hv0.
  pose proof (assemble_kept _ _ _ _ Hp Ha) as Hk.
  destruct (assemble_inv _ _ _ _ Ha) as (_ & _ & _ & _ & _ & _ & Hnn).
  rewrite Es in Hnn.
  assert (Hl : length (n_nndx nb) = 1%nat).
  { apply take_length in Hr. congruence. }
  destruct (length_one _ Hl) as (z0 & Ez). rewrite Ez in Hnn. symmetry in Hnn.
  destruct (nonzero_singleton _ _ Hnn) as (Hz0 & Hzt & Hzu).
  apply nth_error_eqb_true in Hzt.
  remember (Z.to_nat z0) as k0 eqn:Ek0.
  assert (Ez0 : z0 = Z.of_nat k0) by lia.
  (* the row entry at k0 *)
  destruct (Forall2_nth_error_l _ _ _ _ _ Hk Hzt) as (r0 & Hr0 & c' & Hn0 & Hv0' & _).
  rewrite norm_index_in_range in Hn0.
  2:{ destruct (norm_index_Ok _ _ _ Hn0) as (? & ? & ?). lia. }
  injection Hn0 as <-. assert (r0 = p) by lia. subst r0.
  (* the column entries *)
  rewrite Ez in Hsp. unfold take in Hsp; simpl in Hsp.
  inv_bind Hsp. injection Hsp as <-.
  apply getitem_nonneg in E; auto. rewrite <- Ek0 in E.
  assert (x = p) by congruence. subst x.
  apply mul_ones_one in Hj.
  exists nb, p, k0, R. rewrite Hi. rewrite <- Ez0, <- Ez.
  repeat split; auto.
  - intros Hkp.
    destruct (Forall2_nth_error_r _ _ _ _ _ Hk Hkp) as (c & Hck & Hkept).
    destruct (kept_as_retained _ _ _ _ Hp Hkept) as (c'' & j & Hn & Hjv & Hjp & _).
    assert (j = i).
    { eapply (proj1 (NoDup_nth_error (vndx st))).
      - now apply vndx_NoDup with inp.
      - apply nth_error_Some. congruence.
      - congruence. }
    subst j. assert (c'' = v) by congruence. subst c''.
    assert (c = v).
    { eapply no_wrap_to_seed; eauto.
      pose proof (assemble_sub _ _ _ _ Ha) as Hsub. rewrite Forall_forall in Hsub.
      apply Hsub. eapply nth_error_In, Hck. }
    subst c. apply Hzu. now apply nth_error_eqb_true.
  - intros ->. exact Hr0.
Qed.

(** * The claims *)

(** C5. For a shape of positive integers: converting a flat index to a triple
    and back gives the index again; converting an in-bounds triple to a flat
    index and back gives the triple again; and on a batch [indx_3dto1d]
    returns, row by row, what it returns on the single triple. *)
Theorem indx_roundtrip (sz : shape3) (Hsz : shape_pos sz) :
  (forall i, 0 <= i < prod3 sz ->
     indx_3dto1d (Rank1 (indx_1dto3d i sz)) sz = Scalar i) /\
  (forall c, in_bounds c sz ->
     exists j, indx_3dto1d (Rank1 c) sz = Scalar j /\ indx_1dto3d j sz = c) /\
  (forall cs k c, nth_error cs k = Some c ->
     exists j v, indx_3dto1d (Rank1 c) sz = Scalar j /\
                 indx_3dto1d (Rank2 cs) sz = Vector v /\
                 nth_error v k = Some j).
Proof.
  split; [|split].
  - intros i _. pose proof (to1d_to3d_any i sz) as H.
    unfold flat1 in H. destruct (indx_1dto3d i sz) as [[x y] z].
    simpl in *. now f_equal.
  - intros c Hc. exists (flat1 c sz). split.
    + destruct c as [[x y] z]; reflexivity.
    + now apply to3d_to1d.
  - intros cs k c Hk. exists (flat1 c sz), (flatN cs sz). repeat split.
    + destruct c as [[x y] z]; reflexivity.
    + rewrite flatN_map. now apply (map_nth_error (fun c => flat1 c sz)).
Qed.

(** C5 at the shape (3,3,3) and the flat index 17. *)
Lemma indx_roundtrip_witness :
  indx_3dto1d (Rank1 (indx_1dto3d 17 (3, 3, 3))) (3, 3, 3) = Scalar 17.
Proof.
  assert (H : shape_pos (3, 3, 3)) by (cbn; lia).
  apply (proj1 (indx_roundtrip (3, 3, 3) H)). cbn; lia.
Defined.

Lemma Forall2_In_l_keep {A B : Type} (R : A -> B -> Prop) l l' :
  Forall2 R l l' -> Forall2 (fun a b => In a l /\ R a b) l l'.
Proof.
  induction 1 as [|a b l l' Hab _ IH]; constructor.
  - split; [now left | exact Hab].
  - eapply Forall2_impl; [|exact IH]. simpl. intros x y [Hx Hxy].
    split; [now right | exact Hxy].
Qed.

Lemma nth_error_in_range {A : Type} (l : list A) i :
  (i < length l)%nat -> exists x, nth_error l i = Some x.
Proof.
  intros H. destruct (nth_error l i) eqn:E; [eauto|].
  apply nth_error_None in E. lia.
Qed.

(** C1 (as stated, refuted). With voxels 21 and 22 in the mask and voxel 21
    dropped for its constant time course, the only seed is flat index 22, and
    the triplet it emits has row 1 and column 1: the position of voxel 22
    among the in-mask voxels, not its flat index.  All 27 candidates of the
    seed are flat indices of the volume. *)
Lemma rows_cols_not_flat_indices :
  (exists st e,
     prepare constant_neighbour = Ok st /\
     candidates_in_volume constant_neighbour st 0 = true /\
     seed_step constant_neighbour st 0 = Ok e /\
     iv st = [22] /\ e_i e = [1] /\ e_j e = [1]) /\
  ~ rows_cols_are_flat_indices constant_neighbour.
Proof.
  assert (F : exists st nb e,
             prepare constant_neighbour = Ok st /\
             candidates_in_volume constant_neighbour st 0 = true /\
             assemble constant_neighbour st 0 = Ok nb /\
             seed_step constant_neighbour st 0 = Ok e /\
             iv st = [22] /\ n_ndx1d nb = [22] /\ e_i e = [1] /\ e_j e = [1]).
  { do 3 eexists. repeat split; vm_compute; reflexivity. }
  destruct F as (st & nb & e & Hp & Hc & Ha & Hs & Hiv & Hn & Hi & Hj).
  split.
  - exists st, e. repeat split; assumption.
  - intros H. destruct (H st 0%nat nb e Hp) as [E _]; auto.
    + rewrite Hiv. simpl. lia.
    + rewrite Hi, Hn in E. discriminate.
Qed.

(** C1 (amended). In a run that completes, the output's row segment and
    column segment are the seeds' contributions in seed order; for seed
    number [i], with flat index [iv[i]], every column entry is [vndx[i]], the
    position of the seed in the sequence of in-mask voxels [iv0]; and the row
    entry of each kept candidate is the position in [iv0] of the retained
    voxel that the candidate's flat index denotes. *)
Theorem rows_cols_are_mask_positions (inp : inputs) (acc : accum) :
  run inp = Ok acc ->
  exists st es,
    prepare inp = Ok st /\
    sparse_i acc = concat (map e_i es) /\
    sparse_j acc = concat (map e_j es) /\
    Forall2
      (fun i e =>
         exists nb p v,
           seed_step inp st i = Ok e /\ assemble inp st i = Ok nb /\
           nth_error (iv st) i = Some v /\
           nth_error (vndx st) i = Some p /\
           nth_error (iv0 st) (Z.to_nat p) = Some v /\
           e_j e = repeat p (length (e_i e)) /\
           Forall2
             (fun n r =>
                exists n', norm_index (prod3 (msz inp)) n = Ok n' /\
                           In n' (iv st) /\ 0 <= r /\
                           nth_error (iv0 st) (Z.to_nat r) = Some n')
             (n_ndx1d nb) (e_i e))
      (seq 0 (length (iv st))) es.
Proof.
  intros H. destruct (run_inv _ _ H) as (st & es & Hp & HF & Hi & Hj & _).
  exists st, es. repeat split; auto.
  eapply Forall2_impl; [|exact (Forall2_In_l_keep _ _ _ HF)].
  simpl. intros i e (Hin & Hs & Hw).
  apply in_seq in Hin.
  destruct (nth_error_in_range (iv st) i) as (v & Hv); [lia|].
  destruct (seed_step_self _ _ _ _ _ Hp Hv Hs Hw)
    as (nb & p & k0 & R & Ha & Ei & Hpi & _ & _ & Ej & _).
  destruct (iv_nth _ _ _ _ Hp Hv) as (p' & _ & Hp' & _ & Hv0 & _).
  assert (p' = p) by congruence. subst p'.
  exists nb, p, v. repeat split; auto.
  rewrite Ei. eapply Forall2_impl; [|exact (assemble_kept _ _ _ _ Hp Ha)].
  simpl. intros n r Hk.
  destruct (kept_as_retained _ _ _ _ Hp Hk) as (n' & j & Hn & Hj' & _ & Hr & Hr0).
  exists n'. repeat split; auto. eapply nth_error_In, Hj'.
Qed.

(** C1 (amended) on a run over three voxels. *)
Lemma rows_cols_are_mask_positions_witness :
  exists acc st es,
    run three_voxels = Ok acc /\ prepare three_voxels = Ok st /\
    sparse_i acc = concat (map e_i es) /\
    sparse_j acc = concat (map e_j es).
Proof.
  assert (exists acc, run three_voxels = Ok acc) as [acc H]
    by (eexists; vm_compute; reflexivity).
  destruct (rows_cols_are_mask_positions three_voxels acc H)
    as (st & es & Hp & Hi & Hj & _).
  exists acc, st, es. auto.
Defined.

(** C2 (the script departs from the claim). In the 2 x 2 x 2 volume, fully
    in the mask, the corner seed (0,0,0) keeps all 27 candidates, not 8: the
    candidate at offset (0,1,-1) has the coordinate (0,1,-1), outside the
    volume, but its flat index is 1, a voxel of the mask, and it is kept; a
    negative flat index such as -7 is read from the end of the map and kept
    too.  The next seed has a candidate past the end of the map, and the run
    stops with an index error. *)
Theorem corner_seed_keeps_out_of_volume_candidates :
  exists st nb e,
    prepare full_cube = Ok st /\
    iv st = [0; 1; 2; 3; 4; 5; 6; 7] /\
    indx_1dto3d (nth 0 (iv st) 0) (sz_xyz full_cube) = (0, 0, 0) /\
    assemble full_cube st 0 = Ok nb /\
    length (n_ndx1d nb) = 27%nat /\
    nth_error (ndx3d_of 0 (2, 2, 2)) 7 = Some (0, 1, -1) /\
    ~ in_bounds (0, 1, -1) (2, 2, 2) /\
    nth_error (candidates full_cube st 0) 7 = Some 1 /\
    nth_error (n_ndx1d nb) 7 = Some 1 /\
    nth_error (n_ndx1d nb) 0 = Some (-7) /\
    seed_step full_cube st 0 = Ok e /\
    length (e_i e) = 27%nat /\
    seed_step full_cube st 1 = IndexError /\
    make_local_connectivity_scorr full_cube = IndexError.
Proof.
  do 3 eexists.
  repeat match goal with |- _ /\ _ => split end;
    try (vm_compute; reflexivity).
  cbn. lia.
Qed.



(** The correlation matrix of [k] maps is [k] x [k]. *)
Lemma corrcoef_square (x : list (list float)) :
  length (reshape_1_1 (corrcoef x)) = length x /\
  Forall (fun row => length row = length x) (reshape_1_1 (corrcoef x)).
Proof.
  destruct x as [|r1 [|r2 rest]].
  - cbv. auto.
  - unfold corrcoef, cov. simpl. auto.
  - unfold corrcoef, cov.
    remember (map (fun row => let mu := mean row in
                              map (fun v => (v - mu)%float) row)
                  (r1 :: r2 :: rest)) as X eqn:EX.
    assert (HX : length X = S (S (length rest))).
    { rewrite EX, length_map. reflexivity. }
    remember (Z2F (Z.of_nat match X with
                            | [] => 0%nat
                            | r :: _ => length r
                            end) - 1)%float as fact eqn:Efact.
    remember (map (fun a => map (fun b => (dotp a b / fact)%float) X) X)
      as c eqn:Ec.
    assert (Hc : length c = length X) by (rewrite Ec; apply length_map).
    assert (Hrow : Forall (fun row => length row = length X) c).
    { rewrite Ec. apply Forall_forall. intros row Hr.
      apply in_map_iff in Hr as (a & <- & _). apply length_map. }
    assert (Hs : squeeze c = Array2 c).
    { destruct c as [|c1 [|c2 c']]; simpl in *; try lia.
      destruct c1 as [|f [|g c1]]; reflexivity. }
    rewrite Hs. simpl reshape_1_1.
    assert (Hd : length (diag c) = length c).
    { unfold diag. rewrite length_map, length_combine, length_seq. lia. }
    split.
    + rewrite length_map, length_combine. simpl. lia.
    + apply Forall_forall. intros row Hr.
      apply in_map_iff in Hr as ([row0 d0] & <- & Hin). simpl.
      apply in_combine_l in Hin. rewrite Forall_forall in Hrow.
      rewrite length_map, length_combine, (Hrow _ Hin). simpl. lia.
Qed.

Lemma fc_map_length tc imdat sz0 :
  length (fc_map tc imdat sz0) = length tc /\
  Forall (fun row => length row = length imdat) (fc_map tc imdat sz0).
Proof.
  unfold fc_map. split; [apply length_map|].
  apply Forall_forall. intros row Hr.
  apply in_map_iff in Hr as (a & <- & _). apply length_map.
Qed.

Lemma take_single {A : Type} (a : list A) k x :
  nth_error a k = Some x -> take a [Z.of_nat k] = Ok [x].
Proof.
  intros H. unfold take. simpl.
  rewrite (nth_error_getitem a (Z.of_nat k) x); [reflexivity|lia|].
  now rewrite Nat2Z.id.
Qed.







(** C6 (as stated, refuted). Voxel 21 is in the mask and is dropped for its
    constant time course; voxel 22 is the only retained voxel, at position 0
    of the final [iv], and the map sends it to 2, not to 0 + 1. *)
Lemma msk_not_final_positions :
  (exists st,
     prepare constant_neighbour = Ok st /\
     iv0 st = [21; 22] /\ iv st = [22] /\ csc_value (msk st) 22 = 2) /\
  ~ msk_holds_final_positions constant_neighbour.
Proof.
  assert (F : exists st,
             prepare constant_neighbour = Ok st /\
             iv0 st = [21; 22] /\ iv st = [22] /\ csc_value (msk st) 22 = 2).
  { eexists. repeat split; vm_compute; reflexivity. }
  split; [exact F|].
  destruct F as (st & Hp & _ & Hiv & Hval).
  intros H. specialize (H st 0%nat 22 Hp). rewrite Hiv in H.
  specialize (H eq_refl). rewrite Hval in H. discriminate.
Qed.

(** C6 (amended). The map sends entry [j] of the final [iv] to [vndx[j] + 1],
    where [vndx[j]] is the zero-based position of that voxel in the sequence
    of in-mask voxels [iv0], which is also its column in the normalised
    matrix; it sends every other row to 0.  So a non-zero value at a row says
    that the row is a retained voxel, and the value less one is the voxel's
    position in [iv0]. *)
Theorem msk_holds_mask_positions (inp : inputs) (st : masked) :
  prepare inp = Ok st ->
  (forall j v, nth_error (iv st) j = Some v ->
     exists p col,
       nth_error (vndx st) j = Some p /\ 0 <= p /\
       nth_error (iv0 st) (Z.to_nat p) = Some v /\
       nth_error (imdat st) (Z.to_nat p) = Some col /\
       csc_value (msk st) v = p + 1) /\
  (forall v, ~ In v (iv st) -> csc_value (msk st) v = 0) /\
  (forall v, csc_value (msk st) v <> 0 ->
     In v (iv st) /\ 0 <= csc_value (msk st) v - 1 /\
     nth_error (iv0 st) (Z.to_nat (csc_value (msk st) v - 1)) = Some v).
Proof.
  intros Hp. split; [|split].
  - intros j v Hj.
    destruct (iv_nth _ _ _ _ Hp Hj) as (p & col & Hpj & Hp0 & Hv & Hcol & _).
    destruct (msk_value_retained _ _ _ _ Hp Hj) as (p' & Hpj' & Hval).
    assert (p' = p) by congruence. subst p'.
    exists p, col. auto.
  - intros v Hn. now apply msk_value_absent with inp.
  - intros v Hv.
    destruct (msk_value_nonzero _ _ _ Hp Hv) as (j & p & Hj & _ & Hp0 & Hi & ->).
    replace (p + 1 - 1) with p by lia.
    repeat split; auto. eapply nth_error_In, Hj.
Qed.

(** C6 (amended) on the mask with a dropped voxel. *)
Lemma msk_holds_mask_positions_witness :
  exists st,
    prepare constant_neighbour = Ok st /\
    forall v, ~ In v (iv st) -> csc_value (msk st) v = 0.
Proof.
  assert (exists st, prepare constant_neighbour = Ok st) as (st & Hp)
    by (eexists; vm_compute; reflexivity).
  exists st. split; [exact Hp|].
  exact (proj1 (proj2 (msk_holds_mask_positions constant_neighbour st Hp))).
Defined.

Lemma imdat_columns inp st j v :
  prepare inp = Ok st -> nth_error (iv0 st) j = Some v ->
  exists raw, getitem (nim_data inp) v = Ok raw /\
              nth_error (imdat st) j = Some (zscore raw).
Proof.
  intros Hp Hj. destruct (prepare_inv _ _ Hp) as (_ & (raw & Hraw & ->) & _).
  apply take_Forall2 in Hraw.
  destruct (Forall2_nth_error_l _ _ _ _ _ Hraw Hj) as (r & Hr & Hg).
  exists r. split; [exact Hg|]. now rewrite nth_error_map, Hr.
Qed.

(** C7 (as stated, refuted). With voxel 21 dropped, the final retained set
    has one voxel, but the normalised matrix keeps two columns, and the
    functional-connectivity map of the one seed has two entries. *)
Lemma imdat_keeps_dropped_columns :
  (exists st tc,
     prepare constant_neighbour = Ok st /\
     length (iv st) = 1%nat /\ length (imdat st) = 2%nat /\
     take (imdat st) [1] = Ok tc /\
     map (@length float) (fc_map tc (imdat st) (sz_t constant_neighbour)) = [2%nat]) /\
  ~ imdat_has_final_columns constant_neighbour.
Proof.
  assert (F : exists st tc,
     prepare constant_neighbour = Ok st /\
     length (iv st) = 1%nat /\ length (imdat st) = 2%nat /\
     take (imdat st) [1] = Ok tc /\
     map (@length float) (fc_map tc (imdat st) (sz_t constant_neighbour)) = [2%nat]).
  { do 2 eexists. repeat split; vm_compute; reflexivity. }
  split; [exact F|].
  destruct F as (st & _ & Hp & Hiv & Him & _).
  intros H. destruct (H st Hp) as [E _]. congruence.
Qed.

(** C7 (amended). The normalised matrix has one column for each in-mask
    voxel, column [j] holding the normalised time course of [iv0[j]], the
    voxels dropped by the variance filter included; the functional-
    connectivity maps of a neighbourhood of [k] voxels form a matrix of [k]
    rows of that length. *)
Theorem imdat_has_mask_columns (inp : inputs) (st : masked) :
  prepare inp = Ok st ->
  length (imdat st) = length (iv0 st) /\
  (forall j v, nth_error (iv0 st) j = Some v ->
     exists raw, getitem (nim_data inp) v = Ok raw /\
                 nth_error (imdat st) j = Some (zscore raw)) /\
  (forall ondx1d tc, take (imdat st) ondx1d = Ok tc ->
     length (fc_map tc (imdat st) (sz_t inp)) = length ondx1d /\
     Forall (fun row => length row = length (iv0 st))
            (fc_map tc (imdat st) (sz_t inp))).
Proof.
  intros Hp. pose proof (imdat_length _ _ Hp) as Hl. split; [exact Hl|split].
  - intros j v Hj. now apply imdat_columns.
  - intros ondx1d tc Ht. rewrite <- Hl.
    destruct (fc_map_length tc (imdat st) (sz_t inp)) as [H1 H2].
    split; [|exact H2]. rewrite H1. now apply take_length in Ht.
Qed.

(** C7 (amended) on the mask with a dropped voxel. *)
Lemma imdat_has_mask_columns_witness :
  exists st,
    prepare constant_neighbour = Ok st /\
    length (imdat st) = length (iv0 st).
Proof.
  assert (exists st, prepare constant_neighbour = Ok st) as (st & Hp)
    by (eexists; vm_compute; reflexivity).
  exists st. split; [exact Hp|].
  exact (proj1 (imdat_has_mask_columns constant_neighbour st Hp)).
Defined.

Lemma getitem_In {A : Type} (a : list A) k x : getitem a k = Ok x -> In x a.
Proof.
  unfold getitem. intros H. inv_bind H.
  destruct (nth_error a (Z.to_nat x0)) eqn:En; [|discriminate].
  inv_Ok H. eapply nth_error_In, En.
Qed.

(** The row and column entries of one seed are positions, in [iv0], of voxels
    of the final [iv]. *)
Lemma seed_step_entries inp st i e r :
  prepare inp = Ok st -> seed_step inp st i = Ok e ->
  In r (e_i e) \/ In r (e_j e) ->
  0 <= r /\ exists v, nth_error (iv0 st) (Z.to_nat r) = Some v /\ In v (iv st).
Proof.
  intros Hp Hs Hr.
  destruct (seed_step_inv _ _ _ _ Hs) as (nb & R & seedpos & Ha & _ & Hsp & Hj & _ & Hi).
  assert (Hin : In r (n_ondx1d nb)).
  { destruct Hr as [Hr|Hr]; [congruence|].
    apply (mul_ones_incl _ _ _ Hj) in Hr.
    destruct (take_In _ _ _ _ Hsp Hr) as (k & _ & Hg).
    eapply getitem_In, Hg. }
  destruct (Forall2_In_r _ _ _ _ (assemble_kept _ _ _ _ Hp Ha) Hin) as (c & _ & Hk).
  destruct (kept_as_retained _ _ _ _ Hp Hk) as (c' & j & _ & Hj' & _ & Hr0 & Hv).
  split; [exact Hr0|]. exists c'. split; [exact Hv|]. eapply nth_error_In, Hj'.
Qed.



(** C9. When no voxel is in the mask, the script runs to its end and the
    vector it saves is empty. *)
Theorem empty_mask_empty_output (inp : inputs) :
  Forall (fun v => v = 0) (mskdat inp) ->
  make_local_connectivity_scorr inp = Ok [].
Proof.
  intros H.
  assert (E : nonzero (map nz (mskdat inp)) = []).
  { apply nonzero_from_all_false. apply Forall_map.
    eapply Forall_impl; [|exact H]. simpl. now intros v ->. }
  unfold make_local_connectivity_scorr, run, prepare. rewrite E. reflexivity.
Qed.

(** C9 on a 3 x 3 x 3 volume with an all-zero mask. *)
Lemma empty_mask_empty_output_witness :
  make_local_connectivity_scorr empty_mask = Ok [].
Proof.
  apply empty_mask_empty_output. unfold empty_mask, mskdat.
  apply Forall_forall. intros v Hv. now apply repeat_spec in Hv.
Defined.

Lemma mapM_IndexError {A B : Type} (f : A -> result B) (l : list A) (c : A) :
  (forall a, f a <> ValueError) -> In c l -> f c = IndexError ->
  mapM f l = IndexError.
Proof.
  intros Hf Hc Hfc. induction l as [|a l IH]; [destruct Hc|].
  simpl. destruct Hc as [->|Hc].
  - now rewrite Hfc.
  - specialize (IH Hc). destruct (f a) eqn:Ea; simpl.
    + now rewrite IH.
    + reflexivity.
    + now apply Hf in Ea.
Qed.

Lemma csc_getitem_past m idx c :
  In c idx -> csc_rows m <= c -> csc_getitem m idx = IndexError.
Proof.
  intros Hc Hn. unfold csc_getitem. apply mapM_IndexError with c; auto.
  - intros a. unfold norm_index.
    now destruct ((a <? - csc_rows m) || (csc_rows m <=? a)).
  - now rewrite norm_index_past.
Qed.

(** C10. Let a retained voxel have the coordinate [x] along the first axis,
    in a volume of positive shape that the mask shares.  If [x = 0], the
    candidate at offset (-1,-1,-1) has a negative flat index; if
    [x = sx - 1], the candidate at offset (1,1,1) has a flat index at or past
    the number of voxels, the lookup of the 27 candidates raises an index
    error, and no run completes.  The lookup itself raises for every index at
    or past the number [N] of rows of the map and for every index below
    [- N]; a negative index [c] from [- N] on is not rejected: the lookup
    returns the value stored at row [c + N].  In an iteration that gets past
    the lookup, every negative candidate is such an index, and when the row
    it wraps to holds a retained voxel the candidate is kept as a neighbour,
    with that voxel's row entry. *)
Theorem lookup_not_total (inp : inputs) (st : masked) (i : nat) (v : Z) :
  prepare inp = Ok st -> nth_error (iv st) i = Some v ->
  shape_pos (sz_xyz inp) -> msz inp = sz_xyz inp ->
  (fst (fst (indx_1dto3d v (sz_xyz inp))) = 0 ->
     In (v + offset (-1, -1, -1) (sz_xyz inp)) (candidates inp st i) /\
     v + offset (-1, -1, -1) (sz_xyz inp) < 0) /\
  (fst (fst (indx_1dto3d v (sz_xyz inp))) = fst (fst (sz_xyz inp)) - 1 ->
     In (v + offset (1, 1, 1) (sz_xyz inp)) (candidates inp st i) /\
     prod3 (msz inp) <= v + offset (1, 1, 1) (sz_xyz inp) /\
     seed_step inp st i = IndexError /\
     forall acc, run inp <> Ok acc) /\
  (forall c, prod3 (msz inp) <= c -> csc_getitem (msk st) [c] = IndexError) /\
  (forall c, c < - prod3 (msz inp) -> csc_getitem (msk st) [c] = IndexError) /\
  (forall c, - prod3 (msz inp) <= c < 0 ->
     csc_getitem (msk st) [c] = Ok [csc_value (msk st) (c + prod3 (msz inp))] /\
     csc_getitem (msk st) [c] = csc_getitem (msk st) [c + prod3 (msz inp)]) /\
  (forall nb k c,
     assemble inp st i = Ok nb -> nth_error (candidates inp st i) k = Some c ->
     c < 0 ->
     - prod3 (msz inp) <= c /\
     (csc_value (msk st) (c + prod3 (msz inp)) <> 0 ->
      In c (n_ndx1d nb) /\
      In (csc_value (msk st) (c + prod3 (msz inp)) - 1) (n_ondx1d nb))).
Proof.
  intros Hp Hv Hpos Hsz.
  assert (Es : nth i (iv st) 0 = v) by (now apply nth_error_nth).
  pose proof (iv_nonneg _ _ _ _ Hp Hv) as Hv0.
  pose proof (msk_rows _ _ Hp) as Hrows.
  rewrite Hsz in *.
  destruct (sz_xyz inp) as [[s0 s1] s2] eqn:Esz. destruct Hpos as (H0 & H1 & H2).
  unfold indx_1dto3d, offset; cbn [prod_1_3 sz_2 prod3 fst].
  assert (HP : 0 < s1 * s2) by nia.
  pose proof (Z.mul_div_le v (s1 * s2) HP) as Hle.
  pose proof (Z.mod_pos_bound v (s1 * s2) HP) as Hmod.
  pose proof (Z.div_mod v (s1 * s2)) as Hdm.
  split; [|split; [|split; [|split; [|split]]]].
  - intros Hx. split.
    + rewrite candidates_offsets, Es, Esz. unfold offset; cbn [prod_1_3 sz_2].
      apply (in_map (fun n : coord => v + (let '(dx, dy, dz) := n in
                                            dx * (s1 * s2) + dy * s2 + dz))
                    neighbors (-1, -1, -1)).
      cbv; tauto.
    + rewrite Hx in Hdm. nia.
  - intros Hx.
    assert (Hin : In (v + (1 * (s1 * s2) + 1 * s2 + 1)) (candidates inp st i)).
    { rewrite candidates_offsets, Es, Esz. unfold offset; cbn [prod_1_3 sz_2].
      apply (in_map (fun n : coord => v + (let '(dx, dy, dz) := n in
                                            dx * (s1 * s2) + dy * s2 + dz))
                    neighbors (1, 1, 1)).
      cbv; tauto. }
    assert (Hge : s0 * s1 * s2 <= v + (1 * (s1 * s2) + 1 * s2 + 1)).
    { rewrite Hx in Hle. nia. }
    assert (Hstep : seed_step inp st i = IndexError).
    { unfold seed_step, assemble. fold (candidates inp st i).
      rewrite (csc_getitem_past (msk st) (candidates inp st i) _ Hin).
      - reflexivity.
      - rewrite Hrows. cbn [prod3]. exact Hge. }
    repeat split; auto.
    intros acc Hr. destruct (run_seed inp acc st i Hr Hp) as (e & He & _).
    + apply nth_error_Some. congruence.
    + congruence.
  - intros c Hc. apply csc_getitem_past with c; [now left|].
    rewrite Hrows. exact Hc.
  - intros c Hc. unfold csc_getitem. simpl. rewrite Hrows. cbn [prod3] in *.
    unfold norm_index.
    replace (c <? - (s0 * s1 * s2)) with true by (symmetry; apply Z.ltb_lt; lia).
    reflexivity.
  - intros c Hc. cbn [prod3] in *.
    assert (E : csc_getitem (msk st) [c] =
                csc_getitem (msk st) [c + s0 * s1 * s2]).
    { unfold csc_getitem. simpl. rewrite Hrows. cbn [prod3].
      now rewrite (norm_index_wrap (s0 * s1 * s2) c). }
    split; [|exact E]. rewrite E. unfold csc_getitem. simpl.
    rewrite Hrows. cbn [prod3].
    now rewrite (norm_index_in_range (s0 * s1 * s2) (c + s0 * s1 * s2)) by lia.
  - intros nb k c Ha Hk Hc.
    pose proof (assemble_candidates_ok _ _ _ _ Hp Ha) as Hok.
    rewrite Forall_forall in Hok.
    destruct (Hok c (nth_error_In _ _ Hk)) as (c0 & Hc0).
    rewrite Hsz in Hc0. cbn [prod3] in *.
    apply norm_index_Ok in Hc0 as (Hr & _ & _).
    split; [lia|]. intros Hval.
    destruct (assemble_inv _ _ _ _ Ha) as (ondx & o & Hg & Hn & Ho & En & _).
    pose proof Hg as Hg2. apply csc_getitem_Forall2 in Hg2. rewrite Hrows in Hg2.
    destruct (Forall2_nth_error_l _ _ _ _ _ Hg2 Hk) as (val & Hvk & c' & Hn' & Ev).
    cbn [prod3] in Hn'. apply norm_index_Ok in Hn' as (_ & Hr' & [E|[_ E]]); [lia|].
    subst c'.
    assert (Hkin : In (Z.of_nat k) (nonzero (map nz ondx))).
    { apply nonzero_In. split; [lia|].
      rewrite Nat2Z.id, nth_error_map, Hvk. simpl. f_equal.
      unfold nz. apply negb_true_iff, Z.eqb_neq. now rewrite Ev. }
    split.
    + apply (take_covers _ _ _ (Z.of_nat k) c Hn Hkin).
      apply nth_error_getitem; [lia|]. now rewrite Nat2Z.id.
    + rewrite En. apply in_map_iff. exists val. split; [now rewrite Ev|].
      apply (take_covers _ _ _ (Z.of_nat k) val Ho Hkin).
      apply nth_error_getitem; [lia|]. now rewrite Nat2Z.id.
Qed.

(** C10 at voxel 7 = (1,1,1) of the 2 x 2 x 2 volume, whose iteration raises;
    the index -7 is read as row 1 of the map, which holds 2. *)
Lemma lookup_not_total_witness :
  exists st,
    prepare full_cube = Ok st /\ seed_step full_cube st 7 = IndexError /\
    csc_getitem (msk st) [-7] = Ok [csc_value (msk st) 1] /\
    csc_value (msk st) 1 = 2.
Proof.
  assert (exists st, prepare full_cube = Ok st /\
                     nth_error (iv st) 7 = Some 7 /\
                     csc_value (msk st) 1 = 2) as (st & Hp & Hv & H2)
    by (eexists; repeat split; vm_compute; reflexivity).
  exists st. split; [exact Hp|].
  assert (Hpos : shape_pos (sz_xyz full_cube)) by (cbn; lia).
  destruct (lookup_not_total full_cube st 7 7 Hp Hv Hpos eq_refl)
    as (_ & H & _ & _ & Hw & _).
  split; [apply H; reflexivity|]. split; [|exact H2].
  apply (Hw (-7)). cbn. lia.
Defined.

(** ** Two further properties of the written specification *)

Lemma nonzero_from_length a : forall s, (length (nonzero_from s a) <= length a)%nat.
Proof.
  induction a as [|b a IH]; intros s; simpl; [lia|].
  destruct b; simpl; specialize (IH (s + 1)); lia.
Qed.

Lemma candidates_length inp st i : length (candidates inp st i) = 27%nat.
Proof. rewrite candidates_offsets, length_map. reflexivity. Qed.

Lemma weights_length inp st ondx R k ws :
  correlate inp st ondx = Ok R -> (k < length ondx)%nat ->
  take R [Z.of_nat k] = Ok ws -> length (concat ws) = length ondx.
Proof.
  intros Hc Hk Hw. destruct (correlate_inv _ _ _ _ Hc) as (tc & Ht & ->).
  assert (Hlen : length tc = length ondx) by (now apply take_length in Ht).
  destruct (corrcoef_square (fc_map tc (imdat st) (sz_t inp))) as [HR0 Hrows].
  rewrite (proj1 (fc_map_length _ _ _)) in HR0, Hrows.
  destruct (nth_error_in_range
              (reshape_1_1 (corrcoef (fc_map tc (imdat st) (sz_t inp)))) k)
    as (row0 & Hrow0); [lia|].
  rewrite (take_single _ k (map (cut (thresh inp)) (map nan_to_zero row0))) in Hw.
  2:{ rewrite !nth_error_map, Hrow0. reflexivity. }
  inv_Ok Hw. simpl. rewrite app_nil_r, !length_map.
  rewrite Forall_forall in Hrows. rewrite (Hrows row0); [lia|].
  eapply nth_error_In, Hrow0.
Qed.

(** The three parts of what a completed seed appends have one length, between
    1 and 27. *)
Lemma seed_step_lengths inp st i e :
  prepare inp = Ok st -> (i < length (iv st))%nat ->
  seed_step inp st i = Ok e -> length (e_w e) = 1%nat ->
  (1 <= length (e_i e) <= 27)%nat /\
  length (e_j e) = length (e_i e) /\
  length (concat (e_w e)) = length (e_i e).
Proof.
  intros Hp Hi Hs Hw.
  destruct (nth_error_in_range (iv st) i Hi) as (v & Hv).
  destruct (seed_step_self _ _ _ _ _ Hp Hv Hs Hw)
    as (nb & p & k0 & R & Ha & Ei & _ & _ & Hk0 & Ej & _ & Hc & Hr).
  pose proof (assemble_lengths _ _ _ _ Ha) as Hl.
  assert (Hlt : (k0 < length (n_ndx1d nb))%nat).
  { apply nth_error_Some. congruence. }
  split; [|split].
  - rewrite Ei, Hl. split; [lia|].
    destruct (assemble_inv _ _ _ _ Ha) as (ondx & o & Hg & Hcand & _).
    apply take_length in Hcand. rewrite Hcand.
    apply mapM_Forall2, Forall2_length in Hg. rewrite candidates_length in Hg.
    pose proof (nonzero_from_length (map nz ondx) 0) as Hn.
    rewrite length_map in Hn. unfold nonzero. lia.
  - rewrite Ej. apply repeat_length.
  - rewrite Ei. apply (weights_length inp st _ R k0); auto. lia.
Qed.

(** X1. The neighbour bound of the specification: in a run that completes,
    every seed emits at least 1 and at most 27 edges. *)
Theorem neighbor_bound (inp : inputs) (acc : accum) (st : masked) (i : nat) :
  run inp = Ok acc -> prepare inp = Ok st -> (i < length (iv st))%nat ->
  exists e, seed_step inp st i = Ok e /\ (1 <= length (e_i e) <= 27)%nat.
Proof.
  intros Hr Hp Hi. destruct (run_seed _ _ _ _ Hr Hp Hi) as (e & Hs & Hw & _).
  exists e. split; [exact Hs|].
  now destruct (seed_step_lengths _ _ _ _ Hp Hi Hs Hw).
Qed.

(** X1 at the second of three voxels. *)
Lemma neighbor_bound_witness :
  exists st e,
    prepare three_voxels = Ok st /\ seed_step three_voxels st 1 = Ok e /\
    (1 <= length (e_i e) <= 27)%nat.
Proof.
  assert (exists acc st, run three_voxels = Ok acc /\
                         prepare three_voxels = Ok st /\
                         length (iv st) = 3%nat) as (acc & st & Hr & Hp & Hl)
    by (do 2 eexists; repeat split; vm_compute; reflexivity).
  assert (Hi : (1 < length (iv st))%nat) by (rewrite Hl; lia).
  destruct (neighbor_bound three_voxels acc st 1 Hr Hp Hi) as (e & Hs & Hb).
  exists st, e. auto.
Defined.

Lemma concat_lengths {A B C : Type} (f : A -> list B) (g : A -> list C) l :
  Forall (fun a => length (f a) = length (g a)) l ->
  length (concat (map f l)) = length (concat (map g l)).
Proof.
  induction 1 as [|a l Ha _ IH]; simpl; [reflexivity|].
  rewrite !length_app. congruence.
Qed.

(** X2. The triplet length law of the specification: the vector the script
    saves has three segments of one length, the number of triplets. *)
Theorem triplet_length (inp : inputs) (out : list float) :
  make_local_connectivity_scorr inp = Ok out ->
  exists acc,
    run inp = Ok acc /\
    out = map Z2F (sparse_i acc) ++ map Z2F (sparse_j acc) ++ concat (sparse_w acc) /\
    length (sparse_j acc) = length (sparse_i acc) /\
    length (concat (sparse_w acc)) = length (sparse_i acc) /\
    length out = (3 * length (sparse_i acc))%nat.
Proof.
  unfold make_local_connectivity_scorr. intros H. inv_bind H. inv_Ok H.
  rename x into acc. exists acc.
  destruct (run_inv _ _ E) as (st & es & Hp & HF & Ei & Ej & Ew).
  assert (HL : Forall (fun e => length (e_j e) = length (e_i e) /\
                                length (concat (e_w e)) = length (e_i e)) es).
  { apply Forall_forall. intros e He.
    destruct (Forall2_In_r _ _ _ _ (Forall2_In_l_keep _ _ _ HF) He)
      as (i & _ & Hin & Hs & Hw).
    apply in_seq in Hin.
    destruct (seed_step_lengths inp st i e Hp) as (_ & H1 & H2); auto. lia. }
  assert (Hj : length (sparse_j acc) = length (sparse_i acc)).
  { rewrite Ei, Ej. apply concat_lengths.
    eapply Forall_impl; [|exact HL]. simpl. tauto. }
  assert (Hw : length (concat (sparse_w acc)) = length (sparse_i acc)).
  { rewrite Ei, Ew. apply (concat_lengths (fun e => concat (e_w e)) e_i).
    eapply Forall_impl; [|exact HL]. simpl. tauto. }
  repeat split; auto.
  unfold outlist. rewrite !length_app, !length_map. lia.
Qed.

(** X2 on a run over three voxels. *)
Lemma triplet_length_witness :
  exists out acc,
    make_local_connectivity_scorr three_voxels = Ok out /\
    run three_voxels = Ok acc /\
    length out = (3 * length (sparse_i acc))%nat.
Proof.
  assert (exists out, make_local_connectivity_scorr three_voxels = Ok out)
    as (out & H) by (eexists; vm_compute; reflexivity).
  destruct (triplet_length three_voxels out H) as (acc & Hr & _ & _ & _ & Hl).
  exists out, acc. auto.
Defined.

(** * Further properties of the script *)

(** ** The coordinate helpers *)

Lemma div_bounds (i P : Z) :
  0 < P -> P * (i / P) <= i < P * (i / P) + P.
Proof.
  intros HP. pose proof (Z.mul_div_le i P HP).
  pose proof (Z.mul_succ_div_gt i P HP). lia.
Qed.

Lemma flat1_in_range (c : coord) (sz : shape3) :
  shape_pos sz -> in_bounds c sz -> 0 <= flat1 c sz < prod3 sz.
Proof.
  destruct sz as [[s0 s1] s2], c as [[x y] z].
  intros (H0 & H1 & H2) (Hx & Hy & Hz).
  rewrite flat1_eq. cbn [prod3].
  assert (Hyz : 0 <= y * s2 + z < s1 * s2) by nia.
  assert (Hxl : 0 <= x * (s1 * s2)) by nia.
  assert (Hxu : x * (s1 * s2) <= (s0 - 1) * (s1 * s2)) by nia.
  split; nia.
Qed.

(** X3. For a shape of positive integers, [indx_1dto3d] sends the flat
    indices of the volume, and no other integer, to coordinates within the
    volume; [indx_3dto1d] sends coordinates within the volume to flat indices
    of the volume, and two different such coordinates to two different
    indices. *)
Theorem indx_in_bounds (sz : shape3) :
  shape_pos sz ->
  (forall i, 0 <= i < prod3 sz <-> in_bounds (indx_1dto3d i sz) sz) /\
  (forall c, in_bounds c sz ->
     exists j, indx_3dto1d (Rank1 c) sz = Scalar j /\ 0 <= j < prod3 sz) /\
  (forall c c', in_bounds c sz -> in_bounds c' sz ->
     indx_3dto1d (Rank1 c) sz = indx_3dto1d (Rank1 c') sz -> c = c').
Proof.
  intros Hpos. split; [|split].
  - intros i. destruct sz as [[s0 s1] s2]. destruct Hpos as (H0 & H1 & H2).
    unfold indx_1dto3d, in_bounds; cbn [prod_1_3 sz_2 prod3].
    assert (HP : 0 < s1 * s2) by nia.
    pose proof (div_bounds i (s1 * s2) HP) as Hx.
    pose proof (div_bounds (i - i / (s1 * s2) * (s1 * s2)) s2 H2) as Hy.
    split.
    + intros Hi. repeat split; nia.
    + intros (Hx' & Hy' & Hz'). split; nia.
  - intros c Hc. exists (flat1 c sz). split.
    + destruct c as [[x y] z]; reflexivity.
    + destruct sz as [[s0 s1] s2], c as [[x y] z].
      destruct Hpos as (H0 & H1 & H2). destruct Hc as (Hx & Hy & Hz).
      rewrite flat1_eq. cbn [prod3].
      assert (Hyz : 0 <= y * s2 + z < s1 * s2) by nia.
      assert (Hxl : 0 <= x * (s1 * s2)) by nia.
      assert (Hxu : x * (s1 * s2) <= (s0 - 1) * (s1 * s2)) by nia.
      split; nia.
  - intros c c' Hc Hc' E.
    rewrite <- (to3d_to1d c sz Hpos Hc), <- (to3d_to1d c' sz Hpos Hc').
    f_equal. unfold flat1. now rewrite E.
Qed.

(** X3 at the shape (3,3,5). *)
Lemma indx_in_bounds_witness :
  in_bounds (indx_1dto3d 22 (3, 3, 5)) (3, 3, 5).
Proof.
  assert (H : shape_pos (3, 3, 5)) by (cbn; lia).
  apply (proj1 (indx_in_bounds (3, 3, 5) H)). cbn; lia.
Defined.

Lemma ndx3d_of_shift v sz :
  ndx3d_of v sz = map (shift (indx_1dto3d v sz)) neighbors.
Proof.
  unfold ndx3d_of, shift. now destruct (indx_1dto3d v sz) as [[x y] z].
Qed.

Lemma flat1_shift c n sz : flat1 (shift c n) sz = flat1 c sz + offset n sz.
Proof.
  destruct c as [[x y] z], n as [[dx dy] dz], sz as [[s0 s1] s2].
  unfold shift, offset. rewrite !flat1_eq. cbn [prod_1_3 sz_2]. lia.
Qed.

Lemma neighbors_range n :
  In n neighbors ->
  let '(dx, dy, dz) := n in -1 <= dx <= 1 /\ -1 <= dy <= 1 /\ -1 <= dz <= 1.
Proof.
  unfold neighbors. intros H.
  repeat (destruct H as [<-|H]; [lia|]). destruct H.
Qed.

(** X4. Whatever the seed and the shape, converting the seed to a
    coordinate, adding the 27 offsets and converting back gives the seed's
    flat index plus [dx*sy*sz + dy*sz + dz], offset by offset; the fourteenth
    candidate is the seed itself, and with every candidate [c] the list
    holds its mirror image [2*seed - c]. *)
Theorem stencil_is_linear (v : Z) (sz : shape3) :
  indx_3dto1d (Rank2 (ndx3d_of v sz)) sz =
    Vector (map (fun n => v + offset n sz) neighbors) /\
  nth_error (flatN (ndx3d_of v sz) sz) 13 = Some v /\
  (forall c, In c (flatN (ndx3d_of v sz) sz) ->
             In (2 * v - c) (flatN (ndx3d_of v sz) sz)).
Proof.
  assert (E : flatN (ndx3d_of v sz) sz = map (fun n => v + offset n sz) neighbors).
  { rewrite flatN_map, ndx3d_of_shift, map_map. apply map_ext. intros n.
    now rewrite flat1_shift, to1d_to3d_any. }
  split; [|split].
  - rewrite <- E. reflexivity.
  - rewrite E. unfold neighbors. simpl. f_equal. unfold offset. lia.
  - rewrite E. intros c Hc. apply in_map_iff in Hc as (n & <- & Hn).
    apply in_map_iff. exists (opposite n). split.
    + rewrite offset_opposite. lia.
    + now apply neighbors_opposite.
Qed.

(** ** From the mask to the index map, when it completes *)

Lemma take_ok {A : Type} (a : list A) idx :
  Forall (fun k => 0 <= k < Z.of_nat (length a)) idx ->
  exists l, take a idx = Ok l.
Proof.
  induction 1 as [|k idx Hk _ (l & IH)].
  - now exists [].
  - destruct (nth_error_in_range a (Z.to_nat k)) as (x & Hx); [lia|].
    exists (x :: l). unfold take in *. simpl.
    rewrite (nth_error_getitem a k x); [|lia|exact Hx]. simpl. now rewrite IH.
Qed.

Lemma getitem_not_ValueError {A : Type} (a : list A) k : getitem a k <> ValueError.
Proof.
  unfold getitem, norm_index.
  destruct ((k <? - Z.of_nat (length a)) || (Z.of_nat (length a) <=? k));
    simpl; [discriminate|].
  now destruct (nth_error a _).
Qed.

Lemma take_IndexError {A : Type} (a : list A) idx k :
  In k idx -> Z.of_nat (length a) <= k -> take a idx = IndexError.
Proof.
  intros Hk Hle. unfold take. apply mapM_IndexError with k; auto.
  - apply getitem_not_ValueError.
  - unfold getitem. now rewrite norm_index_past.
Qed.

Lemma nonzero_range a k : In k (nonzero a) -> 0 <= k < Z.of_nat (length a).
Proof.
  intros H. apply nonzero_In in H as [H0 H]. split; [exact H0|].
  assert (Z.to_nat k < length a)%nat by (apply nth_error_Some; congruence).
  lia.
Qed.

(** X5. The script never compares the shape of the mask with the shape of
    the data.  The lines up to the index map complete exactly when every
    in-mask flat index is a column of the data: they do if the mask has no
    more voxels than the data, and they raise an index error as soon as one
    in-mask voxel lies past the last column. *)
Theorem prepare_needs_mask_within_data (inp : inputs) :
  ((forall v, In v (nonzero (map nz (mskdat inp))) ->
              v < Z.of_nat (length (nim_data inp))) ->
   exists st, prepare inp = Ok st) /\
  ((length (mskdat inp) <= length (nim_data inp))%nat ->
   exists st, prepare inp = Ok st) /\
  (forall v, In v (nonzero (map nz (mskdat inp))) ->
             Z.of_nat (length (nim_data inp)) <= v ->
             prepare inp = IndexError).
Proof.
  assert (H1 : (forall v, In v (nonzero (map nz (mskdat inp))) ->
                          v < Z.of_nat (length (nim_data inp))) ->
               exists st, prepare inp = Ok st).
  { intros Hin. unfold prepare.
    destruct (take_ok (nim_data inp) (nonzero (map nz (mskdat inp)))) as (raw & Hraw).
    { apply Forall_forall. intros k Hk. split; [|now apply Hin].
      now apply nonzero_range in Hk. }
    rewrite Hraw. simpl.
    destruct (take_ok (nonzero (map nz (mskdat inp)))
                (nonzero (map var_nonzero (map zscore raw)))) as (iv' & Hiv).
    { apply Forall_forall. intros k Hk. apply nonzero_range in Hk.
      rewrite !length_map in Hk. apply take_length in Hraw. lia. }
    rewrite Hiv. simpl. eauto. }
  split; [exact H1|split].
  - intros Hlen. apply H1. intros v Hv. apply nonzero_range in Hv.
    rewrite length_map in Hv. lia.
  - intros v Hv Hle. unfold prepare.
    now rewrite (take_IndexError _ _ v Hv Hle).
Qed.

(** X5 on a mask of 45 voxels over data of 27: voxel 30 is past the data. *)
Lemma prepare_needs_mask_within_data_witness :
  prepare mask_past_data = IndexError.
Proof.
  apply (proj2 (proj2 (prepare_needs_mask_within_data mask_past_data)) 30).
  - vm_compute. auto.
  - vm_compute. discriminate.
Defined.

(** ** The order of the retained voxels and of the output *)

Lemma nonzero_from_sorted a : forall s, StronglySorted Z.lt (nonzero_from s a).
Proof.
  induction a as [|b a IH]; intros s; simpl; [constructor|].
  destruct b; [|apply IH]. constructor; [apply IH|].
  apply Forall_forall. intros k Hk. apply nonzero_from_In in Hk. lia.
Qed.

Lemma sorted_nth (a : list Z) : forall i j x y,
  StronglySorted Z.lt a -> (i < j)%nat ->
  nth_error a i = Some x -> nth_error a j = Some y -> x < y.
Proof.
  induction a as [|h a IH]; intros i j x y Hs Hij Hi Hj.
  - now destruct i.
  - inversion Hs as [|? ? Hs' Hall]; subst.
    destruct j as [|j]; [lia|]. simpl in Hj. destruct i as [|i]; simpl in Hi.
    + inv_Ok Hi. rewrite Forall_forall in Hall. apply Hall.
      eapply nth_error_In, Hj.
    + apply (IH i j); auto. lia.
Qed.

Lemma take_sorted (a idx l : list Z) :
  StronglySorted Z.lt a -> StronglySorted Z.lt idx ->
  Forall (fun k => 0 <= k) idx ->
  take a idx = Ok l -> StronglySorted Z.lt l.
Proof.
  intros Ha Hidx; revert l.
  induction Hidx as [|k idx Hs IH Hall]; intros l Hnn Ht.
  - unfold take in Ht; simpl in Ht. inv_Ok Ht. constructor.
  - unfold take in Ht; simpl in Ht. inv_bind Ht. inv_bind Ht. inv_Ok Ht.
    inversion Hnn as [|? ? Hk Hnn']; subst.
    constructor; [now apply IH|].
    apply Forall_forall. intros y Hy.
    destruct (take_In a idx x0 y E0 Hy) as (k' & Hk' & Hg).
    rewrite Forall_forall in Hall, Hnn'.
    pose proof (Hall _ Hk') as Hlt. pose proof (Hnn' _ Hk') as Hk0.
    apply getitem_nonneg in E; auto. apply getitem_nonneg in Hg; auto.
    apply (sorted_nth a (Z.to_nat k) (Z.to_nat k')); auto. lia.
Qed.

(** X6. The in-mask voxels, the positions kept by the variance test and the
    retained voxels are each listed in strictly increasing order: the order
    of the retained set is the order of the flat indices. *)
Theorem retained_order (inp : inputs) (st : masked) :
  prepare inp = Ok st ->
  StronglySorted Z.lt (iv0 st) /\
  StronglySorted Z.lt (vndx st) /\
  StronglySorted Z.lt (iv st).
Proof.
  intros Hp. destruct (prepare_inv _ _ Hp) as (E0 & _ & Ev & Ht & _).
  assert (H0 : StronglySorted Z.lt (iv0 st)).
  { rewrite E0. apply nonzero_from_sorted. }
  assert (Hv : StronglySorted Z.lt (vndx st)).
  { rewrite Ev. apply nonzero_from_sorted. }
  repeat split; auto.
  apply (take_sorted (iv0 st) (vndx st)); auto.
  rewrite Ev. apply nonzero_nonneg.
Qed.

(** X6 on three voxels. *)
Lemma retained_order_witness :
  exists st, prepare three_voxels = Ok st /\ StronglySorted Z.lt (iv st).
Proof.
  assert (exists st, prepare three_voxels = Ok st) as (st & Hp)
    by (eexists; vm_compute; reflexivity).
  exists st. split; [exact Hp|].
  exact (proj2 (proj2 (retained_order three_voxels st Hp))).
Defined.

Lemma Forall2_seq_nth {A B : Type} (R : A -> B -> Prop) (f : nat -> option A)
      (l : list A) : forall s bs,
  (forall k, f (s + k)%nat = nth_error l k) ->
  Forall2 (fun i b => exists a, f i = Some a /\ R a b) (seq s (length l)) bs ->
  Forall2 R l bs.
Proof.
  induction l as [|a l IH]; intros s bs Hf HF; simpl in HF.
  - inversion HF. constructor.
  - inversion HF as [|? b ? bs' (a' & Ha' & HR) HF']; subst.
    constructor.
    + specialize (Hf 0%nat). rewrite Nat.add_0_r in Hf. simpl in Hf.
      congruence.
    + apply (IH (S s)); auto. intros k. specialize (Hf (S k)).
      now rewrite Nat.add_succ_r in Hf.
Qed.

Lemma concat_repeats_sorted (ps : list Z) : forall (ls : list (list Z)),
  StronglySorted Z.lt ps ->
  Forall2 (fun p l => exists n, l = repeat p n) ps ls ->
  StronglySorted Z.le (concat ls) /\
  forall x, In x (concat ls) -> In x ps.
Proof.
  induction ps as [|p ps IH]; intros ls Hs HF.
  - inversion HF. simpl. split; [constructor|easy].
  - inversion HF as [|? l ? ls' (n & ->) HF']; subst.
    inversion Hs as [|? ? Hs' Hall]; subst.
    destruct (IH ls' Hs' HF') as [IHs IHin].
    simpl. split.
    + clear HF. induction n as [|n IHn]; simpl; [exact IHs|].
      constructor; [exact IHn|].
      apply Forall_forall. intros x Hx. apply in_app_or in Hx as [Hx|Hx].
      * apply repeat_spec in Hx. lia.
      * apply IHin in Hx. rewrite Forall_forall in Hall.
        specialize (Hall _ Hx). lia.
    + intros x Hx. apply in_app_or in Hx as [Hx|Hx].
      * apply repeat_spec in Hx. now left.
      * right. now apply IHin.
Qed.

(** X7. In a run that completes, the column segment of the output never
    decreases: the triplets of one seed are contiguous and the seeds follow
    each other in the order of their flat indices. *)
Theorem columns_never_decrease (inp : inputs) (acc : accum) :
  run inp = Ok acc -> StronglySorted Z.le (sparse_j acc).
Proof.
  intros Hr. destruct (run_inv _ _ Hr) as (st & es & Hp & HF & _ & -> & _).
  destruct (retained_order _ _ Hp) as (_ & Hv & _).
  apply (concat_repeats_sorted (vndx st) (map e_j es) Hv).
  apply Forall2_map_r.
  apply (Forall2_seq_nth _ (nth_error (vndx st)) (vndx st) 0%nat es).
  { intros k. reflexivity. }
  rewrite <- (iv_length _ _ Hp).
  eapply Forall2_impl; [|exact (Forall2_In_l_keep _ _ _ HF)].
  simpl. intros i e (Hin & Hs & Hw). apply in_seq in Hin.
  destruct (nth_error_in_range (iv st) i) as (v & Hiv); [lia|].
  destruct (seed_step_self _ _ _ _ _ Hp Hiv Hs Hw)
    as (nb & p & k0 & R & _ & _ & Hpi & _ & _ & Ej & _).
  exists p. split; [exact Hpi|]. eauto.
Qed.

(** X7 on a run over three voxels. *)
Lemma columns_never_decrease_witness :
  exists acc, run three_voxels = Ok acc /\ StronglySorted Z.le (sparse_j acc).
Proof.
  assert (exists acc, run three_voxels = Ok acc) as (acc & Hr)
    by (eexists; vm_compute; reflexivity).
  exists acc. split; [exact Hr|].
  exact (columns_never_decrease three_voxels acc Hr).
Defined.

(** ** What the output holds *)

Lemma run_weights inp acc :
  run inp = Ok acc ->
  Forall (fun w => exists x, w = cut (thresh inp) (nan_to_zero x))
         (concat (sparse_w acc)).
Proof.
  intros H. destruct (run_inv _ _ H) as (st & es & Hp & HF & _ & _ & ->).
  apply Forall_forall. intros w Hw.
  apply in_concat in Hw as (ws & Hws & Hw).
  apply in_map_iff in Hws as (e & <- & He).
  destruct (Forall2_In_r _ _ _ _ HF He) as (i & _ & Hs & _).
  destruct (seed_step_inv _ _ _ _ Hs) as (nb & R & _ & _ & Hc & _ & _ & Hr & _).
  apply correlate_entries in Hc. rewrite Forall_forall in Hc.
  apply in_concat in Hw as (row & Hrow & Hw).
  destruct (take_In _ _ _ _ Hr Hrow) as (k & _ & Hg).
  apply getitem_In in Hg. specialize (Hc _ Hg). rewrite Forall_forall in Hc.
  exact (Hc _ Hw).
Qed.

(** X8. In a run that completes, whatever the threshold (NaN included), no
    emitted weight is NaN, and every row and column entry is a position of
    the list of in-mask voxels: at least 0 and below their number. *)
Theorem output_is_well_formed (inp : inputs) (acc : accum) :
  run inp = Ok acc ->
  Forall (fun w => isnan w = false) (concat (sparse_w acc)) /\
  exists st,
    prepare inp = Ok st /\
    Forall (fun r => 0 <= r < Z.of_nat (length (iv0 st)))
           (sparse_i acc ++ sparse_j acc).
Proof.
  intros H. split.
  - eapply Forall_impl; [|exact (run_weights _ _ H)].
    simpl. intros w (x & ->). unfold cut, nan_to_zero.
    destruct (isnan x) eqn:En.
    + now destruct (0 <? thresh inp)%float.
    + now destruct (x <? thresh inp)%float.
  - destruct (run_inv _ _ H) as (st & es & Hp & HF & -> & -> & _).
    exists st. split; [exact Hp|].
    apply Forall_forall. intros r Hr.
    assert (He : exists e, In e es /\ (In r (e_i e) \/ In r (e_j e))).
    { apply in_app_or in Hr as [Hr|Hr]; apply in_concat in Hr as (l & Hl & Hr);
        apply in_map_iff in Hl as (e & <- & He); eauto. }
    destruct He as (e & He & Hre).
    destruct (Forall2_In_r _ _ _ _ HF He) as (i & _ & Hs & _).
    destruct (seed_step_entries _ _ _ _ _ Hp Hs Hre) as (Hr0 & v & Hv & _).
    split; [exact Hr0|].
    assert (Z.to_nat r < length (iv0 st))%nat by (apply nth_error_Some; congruence).
    lia.
Qed.

(** X8 on a run over three voxels. *)
Lemma output_is_well_formed_witness :
  exists acc,
    run three_voxels = Ok acc /\
    Forall (fun w => isnan w = false) (concat (sparse_w acc)).
Proof.
  assert (exists acc, run three_voxels = Ok acc) as (acc & Hr)
    by (eexists; vm_compute; reflexivity).
  exists acc. split; [exact Hr|].
  exact (proj1 (output_is_well_formed three_voxels acc Hr)).
Defined.

(** ** When an iteration completes *)

Lemma norm_index_accept n i :
  - n <= i < n -> exists j, norm_index n i = Ok j.
Proof.
  intros H. unfold norm_index.
  replace (i <? - n) with false by (symmetry; apply Z.ltb_ge; lia).
  replace (n <=? i) with false by (symmetry; apply Z.leb_gt; lia).
  simpl. eauto.
Qed.

Lemma csc_getitem_ok m idx :
  Forall (fun c => - csc_rows m <= c < csc_rows m) idx ->
  exists vals, csc_getitem m idx = Ok vals.
Proof.
  induction 1 as [|c idx Hc _ (vals & IH)].
  - now exists [].
  - destruct (norm_index_accept _ _ Hc) as (j & Hj).
    exists (csc_value m j :: vals). unfold csc_getitem in *. simpl.
    rewrite Hj. simpl. now rewrite IH.
Qed.

Lemma origin_position k : nth_error neighbors k = Some origin -> k = 13%nat.
Proof.
  unfold neighbors, origin. intros H.
  do 27 (destruct k as [|k]; [simpl in H; try discriminate; try reflexivity|]).
  now destruct k.
Qed.

Lemma mul_ones_single x n : mul_ones [x] n = Ok (repeat x n).
Proof. now destruct n as [|[|n]]. Qed.

Lemma NoDup_singleton (l : list Z) x :
  NoDup l -> (forall y, In y l <-> y = x) -> l = [x].
Proof.
  intros Hnd Hin. destruct l as [|a l].
  - exfalso. now apply (proj2 (Hin x)).
  - assert (a = x) by (apply Hin; now left). subst a.
    destruct l as [|b l]; [reflexivity|].
    assert (b = x) by (apply Hin; right; now left). subst b.
    inversion Hnd as [|? ? Hn _]; subst. exfalso. apply Hn. now left.
Qed.

Lemma nonzero_unique bs t :
  nth_error bs t = Some true ->
  (forall k, nth_error bs k = Some true -> k = t) ->
  nonzero bs = [Z.of_nat t].
Proof.
  intros Ht Hu. apply NoDup_singleton; [apply nonzero_NoDup|].
  intros y. rewrite nonzero_In. split.
  - intros [Hy0 Hy]. apply Hu in Hy. lia.
  - intros ->. split; [lia|]. now rewrite Nat2Z.id.
Qed.

(** The seed's iteration completes and appends one row of weights when the
    map accepts its 27 candidates and only the centre of the stencil gives the
    seed's own flat index. *)
Lemma seed_step_completes inp st i v :
  prepare inp = Ok st -> nth_error (iv st) i = Some v ->
  candidates_accepted inp st i -> no_alias (sz_xyz inp) ->
  exists e, seed_step inp st i = Ok e /\ length (e_w e) = 1%nat.
Proof.
  intros Hp Hv Hacc Hna.
  assert (Es : nth i (iv st) 0 = v) by (now apply nth_error_nth).
  pose proof (iv_nonneg _ _ _ _ Hp Hv) as Hv0.
  destruct (msk_value_retained _ _ _ _ Hp Hv) as (p & Hpi & Hval).
  destruct (iv_nth _ _ _ _ Hp Hv) as (p' & _ & Hpi' & Hp0 & _).
  assert (p' = p) by congruence. subst p'.
  (* the lookup *)
  destruct (csc_getitem_ok (msk st) (candidates inp st i)) as (ondx & Hg).
  { now rewrite (msk_rows _ _ Hp). }
  pose proof (csc_getitem_Forall2 _ _ _ Hg) as HgF.
  rewrite (msk_rows _ _ Hp) in HgF.
  pose proof (Forall2_length HgF) as Hlen.
  (* the filter *)
  destruct (take_ok (candidates inp st i) (nonzero (map nz ondx))) as (n1 & Hn1).
  { apply Forall_forall. intros k Hk. apply nonzero_range in Hk.
    rewrite length_map in Hk. lia. }
  destruct (take_ok ondx (nonzero (map nz ondx))) as (o & Ho).
  { apply Forall_forall. intros k Hk. apply nonzero_range in Hk.
    now rewrite length_map in Hk. }
  assert (Ha : assemble inp st i =
               Ok {| n_ndx1d := n1; n_ondx1d := map (fun x => x - 1) o;
                     n_nndx := nonzero (map (Z.eqb v) n1) |}).
  { unfold assemble. fold (candidates inp st i). rewrite Hg. simpl.
    rewrite Hn1. simpl. rewrite Ho. simpl. now rewrite Es. }
  (* the seed is kept once *)
  pose proof (candidates_seed inp st i) as Hc13. rewrite Es in Hc13.
  assert (H13 : In 13 (nonzero (map nz ondx))).
  { destruct (Forall2_nth_error_l _ _ _ _ _ HgF Hc13) as (val & Hval13 & c' & Hn & ->).
    assert (c' = v) by (apply norm_index_Ok in Hn; lia). subst c'.
    apply nonzero_In. split; [lia|].
    change (Z.to_nat 13) with 13%nat. rewrite nth_error_map, Hval13. simpl.
    f_equal. unfold nz. apply negb_true_iff, Z.eqb_neq. lia. }
  apply In_nth_error in H13 as (t & Ht).
  pose proof (take_Forall2 _ _ _ Hn1) as Fn1.
  destruct (Forall2_nth_error_l _ _ _ _ _ Fn1 Ht) as (c & Hct & Hgc).
  apply getitem_nonneg in Hgc; [|lia]. change (Z.to_nat 13) with 13%nat in Hgc.
  assert (c = v) by congruence. subst c.
  assert (Hnn : nonzero (map (Z.eqb v) n1) = [Z.of_nat t]).
  { apply nonzero_unique.
    - now apply nth_error_eqb_true.
    - intros k Hk. apply nth_error_eqb_true in Hk.
      destruct (Forall2_nth_error_r _ _ _ _ _ Fn1 Hk) as (k' & Hk' & Hgk).
      assert (Hk0 : 0 <= k').
      { apply nth_error_In, nonzero_In in Hk'. tauto. }
      apply getitem_nonneg in Hgk; auto.
      rewrite candidates_offsets, Es, nth_error_map in Hgk.
      destruct (nth_error neighbors (Z.to_nat k')) as [n|] eqn:En; [|discriminate].
      simpl in Hgk. injection Hgk as Hoff.
      assert (n = origin).
      { apply Hna; [eapply nth_error_In, En | lia]. }
      subst n. apply origin_position in En.
      assert (k' = 13) by lia. subst k'.
      eapply (proj1 (NoDup_nth_error (nonzero (map nz ondx)))).
      + apply nonzero_NoDup.
      + apply nth_error_Some. congruence.
      + congruence. }
  rewrite Hnn in Ha.
  (* the correlation *)
  pose proof (assemble_kept _ _ _ _ Hp Ha) as Hk. simpl in Hk.
  pose proof (assemble_lengths _ _ _ _ Ha) as Hl. simpl in Hl.
  destruct (take_ok (imdat st) (map (fun x => x - 1) o)) as (tc & Htc).
  { apply Forall_forall. intros r Hr.
    destruct (Forall2_In_r _ _ _ _ Hk Hr) as (c & _ & Hkept).
    destruct (kept_as_retained _ _ _ _ Hp Hkept) as (c' & j & _ & _ & _ & Hr0 & Hi0).
    split; [exact Hr0|]. rewrite (imdat_length _ _ Hp).
    assert (Z.to_nat r < length (iv0 st))%nat by (apply nth_error_Some; congruence).
    lia. }
  assert (Hlt : (t < length (map (fun x : Z => (x - 1)%Z) o))%nat).
  { rewrite Hl. apply nth_error_Some. congruence. }
  destruct (nth_error_in_range _ t Hlt) as (r0 & Hr0).
  set (R0 := reshape_1_1 (corrcoef (fc_map tc (imdat st) (sz_t inp)))).
  assert (Hcor : correlate inp st (map (fun x => x - 1) o) =
                 Ok (map (map (cut (thresh inp))) (map (map nan_to_zero) R0))).
  { unfold correlate. rewrite Htc. simpl. now rewrite reshape_rank. }
  destruct (corrcoef_square (fc_map tc (imdat st) (sz_t inp))) as [HR0 _].
  fold R0 in HR0. rewrite (proj1 (fc_map_length _ _ _)) in HR0.
  apply take_length in Htc.
  destruct (nth_error_in_range
              (map (map (cut (thresh inp))) (map (map nan_to_zero) R0)) t)
    as (row & Hrow).
  { rewrite !length_map. lia. }
  eexists. split.
  - unfold seed_step. rewrite Ha. simpl. rewrite Hcor. simpl.
    rewrite (take_single _ t r0 Hr0). simpl.
    rewrite mul_ones_single. simpl.
    rewrite (take_single _ t row Hrow). simpl. reflexivity.
  - reflexivity.
Qed.

Lemma loop_completes inp st seeds : forall acc,
  Forall (fun i => exists e, seed_step inp st i = Ok e /\ length (e_w e) = 1%nat)
         seeds ->
  length (sparse_w acc) = 1%nat ->
  exists acc', loop inp st seeds acc = Ok acc'.
Proof.
  induction seeds as [|i seeds IH]; intros acc HF Hlen; simpl.
  - eauto.
  - inversion HF as [|? ? (e & Hs & Hw) HF']; subst.
    rewrite Hs. simpl. unfold append_step, append_axis1.
    rewrite Hlen, Hw. simpl.
    apply IH; auto. simpl.
    destruct (length_one _ Hlen) as (w0 & ->).
    destruct (length_one _ Hw) as (w1 & ->). reflexivity.
Qed.

(** A candidate of value [v], the seed, is kept, with the map's value for
    the seed. *)
Lemma seed_alias_kept inp st i v p ondx o k :
  prepare inp = Ok st -> nth_error (iv st) i = Some v ->
  nth_error (vndx st) i = Some p ->
  csc_getitem (msk st) (candidates inp st i) = Ok ondx ->
  take ondx (nonzero (map nz ondx)) = Ok o ->
  nth_error (candidates inp st i) k = Some v ->
  exists t, nth_error (nonzero (map nz ondx)) t = Some (Z.of_nat k) /\
            nth_error o t = Some (p + 1).
Proof.
  intros Hp Hv Hpi Hg Ho Hk.
  pose proof (iv_nonneg _ _ _ _ Hp Hv) as Hv0.
  destruct (msk_value_retained _ _ _ _ Hp Hv) as (p' & Hpi' & Hval).
  assert (p' = p) by congruence. subst p'.
  destruct (iv_nth _ _ _ _ Hp Hv) as (p' & _ & Hpi'' & Hp0 & _).
  assert (p' = p) by congruence. subst p'.
  apply csc_getitem_Forall2 in Hg. rewrite (msk_rows _ _ Hp) in Hg.
  destruct (Forall2_nth_error_l _ _ _ _ _ Hg Hk) as (val & Hvalk & c' & Hn & ->).
  assert (c' = v) by (apply norm_index_Ok in Hn; lia). subst c'.
  assert (Hin : In (Z.of_nat k) (nonzero (map nz ondx))).
  { apply nonzero_In. split; [lia|].
    rewrite Nat2Z.id, nth_error_map, Hvalk. simpl.
    f_equal. unfold nz. apply negb_true_iff, Z.eqb_neq. lia. }
  apply In_nth_error in Hin as (t & Ht). exists t. split; [exact Ht|].
  apply take_Forall2 in Ho.
  destruct (Forall2_nth_error_l _ _ _ _ _ Ho Ht) as (x & Hx & Hgx).
  apply getitem_nonneg in Hgx; [|lia]. rewrite Nat2Z.id in Hgx. congruence.
Qed.

(** When an offset other than the centre gives the seed's own flat index, the
    seed is kept twice and its iteration cannot append one row of weights. *)
Lemma alias_stops_seed inp st i v n e :
  prepare inp = Ok st -> nth_error (iv st) i = Some v ->
  In n neighbors -> n <> origin -> offset n (sz_xyz inp) = 0 ->
  seed_step inp st i = Ok e -> length (e_w e) = 1%nat -> False.
Proof.
  intros Hp Hv Hn Hno Hoff Hs Hw.
  assert (Es : nth i (iv st) 0 = v) by (now apply nth_error_nth).
  destruct (seed_step_self _ _ _ _ _ Hp Hv Hs Hw)
    as (nb & p & k0 & R & Ha & Ei & Hpi & _ & _ & _ & Hrow & _).
  destruct (assemble_inv _ _ _ _ Ha) as (ondx & o & Hg & _ & Ho & Eo & _).
  apply In_nth_error in Hn as (kn & Hkn).
  assert (Hne : kn <> 13%nat).
  { intros ->. apply Hno. unfold neighbors in Hkn. simpl in Hkn. now inv_Ok Hkn. }
  assert (Hc13 : nth_error (candidates inp st i) 13 = Some v).
  { rewrite <- Es. apply candidates_seed. }
  assert (Hckn : nth_error (candidates inp st i) kn = Some v).
  { rewrite candidates_offsets, nth_error_map, Hkn, Es. simpl. f_equal. lia. }
  destruct (seed_alias_kept _ _ _ _ _ _ _ _ Hp Hv Hpi Hg Ho Hc13) as (t1 & Ht1 & Ho1).
  destruct (seed_alias_kept _ _ _ _ _ _ _ _ Hp Hv Hpi Hg Ho Hckn) as (t2 & Ht2 & Ho2).
  assert (Hr1 : nth_error (e_i e) t1 = Some p).
  { rewrite Ei, Eo, nth_error_map, Ho1. simpl. f_equal. lia. }
  assert (Hr2 : nth_error (e_i e) t2 = Some p).
  { rewrite Ei, Eo, nth_error_map, Ho2. simpl. f_equal. lia. }
  apply Hrow in Hr1, Hr2. subst t1 t2.
  rewrite Ht1 in Ht2. injection Ht2 as E. lia.
Qed.

Lemma coord_eq_dec (a b : coord) : {a = b} + {a <> b}.
Proof. repeat decide equality. Qed.

(** X9. Once the index map is built, the run completes exactly when the map
    accepts the 27 candidates of every seed (each flat index lies in
    [-N, N), N the number of rows of the map) and, if any voxel is retained,
    the centre is the only offset of the stencil whose flat-index
    displacement is 0. *)
Theorem run_completes_iff (inp : inputs) (st : masked) :
  prepare inp = Ok st ->
  ((exists acc, run inp = Ok acc) <->
   (forall i, (i < length (iv st))%nat -> candidates_accepted inp st i) /\
   (iv st = [] \/ no_alias (sz_xyz inp))).
Proof.
  intros Hp. split.
  - intros (acc & Hr). split.
    + intros i Hi. destruct (run_seed _ _ _ _ Hr Hp Hi) as (e & Hs & _).
      destruct (seed_step_inv _ _ _ _ Hs) as (nb & _ & _ & Ha & _).
      unfold candidates_accepted.
      eapply Forall_impl; [|exact (assemble_candidates_ok _ _ _ _ Hp Ha)].
      simpl. intros c (c' & Hc). now apply norm_index_Ok in Hc.
    + destruct (iv st) as [|v l] eqn:Eiv; [now left|]. right.
      intros n Hn Hoff. destruct (coord_eq_dec n origin) as [|Hne]; [assumption|].
      exfalso.
      destruct (run_seed inp acc st 0 Hr Hp) as (e & Hs & Hw & _).
      { rewrite Eiv. simpl. lia. }
      apply (alias_stops_seed inp st 0 v n e); auto. now rewrite Eiv.
  - intros [Hacc Hal]. unfold run. rewrite Hp. simpl.
    apply loop_completes; [|reflexivity].
    apply Forall_forall. intros i Hi. apply in_seq in Hi.
    destruct (nth_error_in_range (iv st) i) as (v & Hv); [lia|].
    destruct Hal as [E|Hna].
    + rewrite E in Hi. simpl in Hi. lia.
    + apply (seed_step_completes inp st i v); auto. apply Hacc. lia.
Qed.

(** X9 on three voxels away from the border. *)
Lemma run_completes_iff_witness :
  exists st,
    prepare three_voxels = Ok st /\
    (forall i, (i < length (iv st))%nat -> candidates_accepted three_voxels st i).
Proof.
  assert (exists st acc, prepare three_voxels = Ok st /\
                         run three_voxels = Ok acc) as (st & acc & Hp & Hr)
    by (do 2 eexists; split; vm_compute; reflexivity).
  exists st. split; [exact Hp|].
  exact (proj1 (proj1 (run_completes_iff three_voxels st Hp)
                  (ex_intro _ acc Hr))).
Defined.

Lemma no_alias_iff (sz : shape3) :
  shape_pos sz -> (no_alias sz <-> 2 <= sz_1 sz /\ 2 <= sz_2 sz).
Proof.
  destruct sz as [[s0 s1] s2]. intros (H0 & H1 & H2).
  unfold no_alias, sz_1, sz_2. split.
  - intros Hna. split.
    + destruct (Z.eq_dec s1 1) as [->|]; [|lia]. exfalso.
      assert (E : (1, -1, 0) = origin).
      { apply Hna; [cbv; tauto|]. unfold offset; cbn [prod_1_3 sz_2]. lia. }
      unfold origin in E. inversion E.
    + destruct (Z.eq_dec s2 1) as [->|]; [|lia]. exfalso.
      assert (E : (0, 1, -1) = origin).
      { apply Hna; [cbv; tauto|]. unfold offset; cbn [prod_1_3 sz_2]. lia. }
      unfold origin in E. inversion E.
  - intros [G1 G2] n Hn Hoff. apply neighbors_range in Hn.
    destruct n as [[dx dy] dz]. destruct Hn as (Hx & Hy & Hz).
    unfold offset in Hoff; cbn [prod_1_3 sz_2] in Hoff.
    assert (Hf : (dx * s1 + dy) * s2 = - dz) by lia.
    assert (Ha : dx * s1 + dy = 0) by nia.
    assert (dz = 0) by nia.
    assert (dx = 0) by nia.
    assert (dy = 0) by nia.
    unfold origin. congruence.
Qed.

(** X10. For a volume of positive shape, the centre is the only offset of
    the stencil with displacement 0 exactly when the middle and the last axis
    have length 2 at least.  So on a volume whose middle or last axis has
    length 1 (a single slice), no run that retains a voxel completes. *)
Theorem thin_volume_never_completes (inp : inputs) (st : masked) :
  prepare inp = Ok st -> shape_pos (sz_xyz inp) ->
  (no_alias (sz_xyz inp) <-> 2 <= sz_1 (sz_xyz inp) /\ 2 <= sz_2 (sz_xyz inp)) /\
  (iv st <> [] -> sz_1 (sz_xyz inp) = 1 \/ sz_2 (sz_xyz inp) = 1 ->
   forall acc, run inp <> Ok acc).
Proof.
  intros Hp Hpos. pose proof (no_alias_iff _ Hpos) as Hiff.
  split; [exact Hiff|].
  intros Hne Hthin acc Hr.
  destruct (proj1 (run_completes_iff inp st Hp) (ex_intro _ acc Hr)) as [_ [E|Hna]].
  - contradiction.
  - apply Hiff in Hna. lia.
Qed.

(** X10 on a 5 x 5 x 1 slice with its centre voxel in the mask: the seed is
    kept three times and the append raises. *)
Lemma thin_volume_never_completes_witness :
  make_local_connectivity_scorr single_slice = ValueError.
Proof.
  assert (exists st, prepare single_slice = Ok st /\ iv st <> [])
    as (st & Hp & Hne)
    by (eexists; split; [vm_compute; reflexivity | vm_compute; discriminate]).
  assert (Hpos : shape_pos (sz_xyz single_slice)) by (cbn; lia).
  destruct (thin_volume_never_completes single_slice st Hp Hpos) as [_ H].
  specialize (H Hne (or_intror eq_refl)).
  unfold make_local_connectivity_scorr.
  destruct (run single_slice) as [acc| |] eqn:E.
  - exfalso. exact (H acc eq_refl).
  - vm_compute in E. discriminate.
  - reflexivity.
Defined.

(** ** Seeds away from the border *)

Lemma take_NoDup (a idx l : list Z) :
  NoDup a -> NoDup idx -> Forall (fun k => 0 <= k) idx ->
  take a idx = Ok l -> NoDup l.
Proof.
  intros Ha Hidx Hnn Ht. apply take_Forall2 in Ht.
  apply NoDup_nth_error. intros j1 j2 Hj1 E.
  destruct (nth_error l j1) as [x|] eqn:E1; [|apply nth_error_None in E1; lia].
  symmetry in E.
  destruct (Forall2_nth_error_r _ _ _ _ _ Ht E1) as (k1 & Hk1 & Hg1).
  destruct (Forall2_nth_error_r _ _ _ _ _ Ht E) as (k2 & Hk2 & Hg2).
  rewrite Forall_forall in Hnn.
  pose proof (Hnn _ (nth_error_In _ _ Hk1)) as H1.
  pose proof (Hnn _ (nth_error_In _ _ Hk2)) as H2.
  apply getitem_nonneg in Hg1; auto. apply getitem_nonneg in Hg2; auto.
  assert (Z.to_nat k1 = Z.to_nat k2).
  { eapply (proj1 (NoDup_nth_error a)); eauto.
    - apply nth_error_Some. congruence.
    - congruence. }
  assert (k1 = k2) by lia. subst k2.
  eapply (proj1 (NoDup_nth_error idx)); eauto.
  - apply nth_error_Some. congruence.
  - congruence.
Qed.

(** A candidate that denotes a retained voxel is kept, with the map's value
    for that voxel. *)
Lemma retained_candidate_kept inp st i j u p ondx o k c :
  prepare inp = Ok st -> nth_error (iv st) j = Some u ->
  nth_error (vndx st) j = Some p ->
  csc_getitem (msk st) (candidates inp st i) = Ok ondx ->
  take ondx (nonzero (map nz ondx)) = Ok o ->
  nth_error (candidates inp st i) k = Some c ->
  norm_index (prod3 (msz inp)) c = Ok u ->
  exists t, nth_error (nonzero (map nz ondx)) t = Some (Z.of_nat k) /\
            nth_error o t = Some (p + 1).
Proof.
  intros Hp Hu Hpj Hg Ho Hk Hn.
  destruct (msk_value_retained _ _ _ _ Hp Hu) as (p' & Hpj' & Hval).
  assert (p' = p) by congruence. subst p'.
  destruct (iv_nth _ _ _ _ Hp Hu) as (p' & _ & Hpj'' & Hp0 & _).
  assert (p' = p) by congruence. subst p'.
  apply csc_getitem_Forall2 in Hg. rewrite (msk_rows _ _ Hp) in Hg.
  destruct (Forall2_nth_error_l _ _ _ _ _ Hg Hk) as (val & Hvalk & c' & Hn' & ->).
  assert (c' = u) by congruence. subst c'.
  assert (Hin : In (Z.of_nat k) (nonzero (map nz ondx))).
  { apply nonzero_In. split; [lia|].
    rewrite Nat2Z.id, nth_error_map, Hvalk. simpl.
    f_equal. unfold nz. apply negb_true_iff, Z.eqb_neq. lia. }
  apply In_nth_error in Hin as (t & Ht). exists t. split; [exact Ht|].
  apply take_Forall2 in Ho.
  destruct (Forall2_nth_error_l _ _ _ _ _ Ho Ht) as (x & Hx & Hgx).
  apply getitem_nonneg in Hgx; [|lia]. rewrite Nat2Z.id in Hgx. congruence.
Qed.

Lemma interior_shape v sz :
  interior v sz ->
  shape_pos sz /\ 3 <= sz_1 sz /\ 3 <= sz_2 sz /\ in_bounds (indx_1dto3d v sz) sz.
Proof.
  unfold interior, shape_pos, sz_1, sz_2, in_bounds.
  destruct (indx_1dto3d v sz) as [[x y] z], sz as [[s0 s1] s2]. lia.
Qed.

Lemma interior_shift v sz n :
  interior v sz -> In n neighbors ->
  in_bounds (shift (indx_1dto3d v sz) n) sz.
Proof.
  intros Hi Hn. apply neighbors_range in Hn.
  unfold interior in Hi. unfold in_bounds, shift.
  destruct (indx_1dto3d v sz) as [[x y] z], sz as [[s0 s1] s2], n as [[dx dy] dz].
  lia.
Qed.

(** The candidates of an interior seed are the flat indices of its 27
    neighbours in the volume, each decoded by [indx_1dto3d] to the seed's
    coordinate moved by the offset. *)
Lemma interior_candidate v sz n :
  interior v sz -> In n neighbors ->
  0 <= v + offset n sz < prod3 sz /\
  indx_1dto3d (v + offset n sz) sz = shift (indx_1dto3d v sz) n.
Proof.
  intros Hi Hn. destruct (interior_shape _ _ Hi) as (Hpos & _).
  pose proof (interior_shift _ _ _ Hi Hn) as Hb.
  assert (E : flat1 (shift (indx_1dto3d v sz) n) sz = v + offset n sz).
  { now rewrite flat1_shift, to1d_to3d_any. }
  rewrite <- E. split.
  - now apply flat1_in_range.
  - now apply to3d_to1d.
Qed.

Lemma candidates_NoDup_interior inp st i v :
  nth_error (iv st) i = Some v -> interior v (sz_xyz inp) ->
  NoDup (candidates inp st i).
Proof.
  intros Hv Hi.
  assert (Es : nth i (iv st) 0 = v) by (now apply nth_error_nth).
  destruct (interior_shape _ _ Hi) as (Hpos & _).
  rewrite candidates_offsets, Es.
  apply NoDup_nth_error. intros k1 k2 Hk1 E.
  rewrite length_map in Hk1. rewrite !nth_error_map in E.
  destruct (nth_error_in_range neighbors k1 Hk1) as (n1 & Hn1).
  rewrite Hn1 in E. simpl in E.
  destruct (nth_error neighbors k2) as [n2|] eqn:Hn2; [|discriminate].
  simpl in E. injection E as E.
  pose proof (nth_error_In _ _ Hn1) as Hin1.
  pose proof (nth_error_In _ _ Hn2) as Hin2.
  destruct (interior_candidate v _ n1 Hi Hin1) as [_ D1].
  destruct (interior_candidate v _ n2 Hi Hin2) as [_ D2].
  assert (Esh : shift (indx_1dto3d v (sz_xyz inp)) n1 =
                shift (indx_1dto3d v (sz_xyz inp)) n2) by congruence.
  assert (n1 = n2).
  { unfold shift in Esh.
    destruct (indx_1dto3d v (sz_xyz inp)) as [[x y] z],
             n1 as [[a1 b1] c1], n2 as [[a2 b2] c2].
    injection Esh as ? ? ?. f_equal; [f_equal|]; lia. }
  subst n2.
  assert (Hnd : NoDup neighbors).
  { unfold neighbors.
    repeat (constructor; [simpl; intuition discriminate|]). constructor. }
  eapply (proj1 (NoDup_nth_error neighbors)); eauto. congruence.
Qed.

(** X11. A seed with no coordinate on the border of the volume (mask and
    data of one shape): each of its 27 candidates decodes to the seed's
    coordinate moved by the offset, inside the volume; its iteration
    completes; and its row entries are, without repetition, exactly the
    positions among the in-mask voxels of the retained voxels of its 3 x 3 x
    3 neighbourhood. *)
Theorem interior_seed_neighbours (inp : inputs) (st : masked) (i : nat) (v : Z) :
  prepare inp = Ok st -> msz inp = sz_xyz inp ->
  nth_error (iv st) i = Some v -> interior v (sz_xyz inp) ->
  (forall n, In n neighbors ->
     in_bounds (shift (indx_1dto3d v (sz_xyz inp)) n) (sz_xyz inp) /\
     indx_1dto3d (v + offset n (sz_xyz inp)) (sz_xyz inp) =
       shift (indx_1dto3d v (sz_xyz inp)) n) /\
  exists e,
    seed_step inp st i = Ok e /\ length (e_w e) = 1%nat /\
    NoDup (e_i e) /\
    (forall r, In r (e_i e) <->
       exists n, In n neighbors /\
                 In (v + offset n (sz_xyz inp)) (iv st) /\ 0 <= r /\
                 nth_error (iv0 st) (Z.to_nat r) =
                   Some (v + offset n (sz_xyz inp))).
Proof.
  intros Hp Hsz Hv Hi.
  assert (Es : nth i (iv st) 0 = v) by (now apply nth_error_nth).
  destruct (interior_shape _ _ Hi) as (Hpos & G1 & G2 & _).
  split.
  { intros n Hn. split; [now apply interior_shift|].
    now apply interior_candidate. }
  assert (Hrange : forall c, In c (candidates inp st i) ->
                             0 <= c < prod3 (msz inp)).
  { intros c Hc. rewrite candidates_offsets, Es in Hc.
    apply in_map_iff in Hc as (n & <- & Hn). rewrite Hsz.
    now apply interior_candidate. }
  destruct (seed_step_completes inp st i v Hp Hv) as (e & Hs & Hw).
  { apply Forall_forall. intros c Hc. apply Hrange in Hc. lia. }
  { apply no_alias_iff; [exact Hpos | lia]. }
  exists e. split; [exact Hs|split; [exact Hw|]].
  destruct (seed_step_inv _ _ _ _ Hs) as (nb & _ & _ & Ha & _ & _ & _ & _ & Ei).
  pose proof (assemble_kept _ _ _ _ Hp Ha) as Hk.
  pose proof (assemble_sub _ _ _ _ Ha) as Hsub. rewrite Forall_forall in Hsub.
  destruct (assemble_inv _ _ _ _ Ha) as (ondx & o & Hg & Hc & Ho & Eo & _).
  assert (Hkept : forall c r, In c (n_ndx1d nb) -> kept_as inp st c r ->
            In c (iv st) /\ 0 <= r /\ nth_error (iv0 st) (Z.to_nat r) = Some c).
  { intros c r Hc' Hkr.
    destruct (kept_as_retained _ _ _ _ Hp Hkr) as (c' & j & Hn & Hj & _ & Hr0 & Hi0).
    rewrite norm_index_in_range in Hn by (apply Hrange, Hsub, Hc').
    injection Hn as <-. repeat split; auto. eapply nth_error_In, Hj. }
  split.
  - (* no row entry twice *)
    assert (Hnd1 : NoDup (n_ndx1d nb)).
    { apply (take_NoDup (candidates inp st i) (nonzero (map nz ondx))); auto.
      - now apply candidates_NoDup_interior with v.
      - apply nonzero_NoDup.
      - apply nonzero_nonneg. }
    rewrite Ei. apply NoDup_nth_error. intros k1 k2 Hk1 E.
    destruct (nth_error (n_ondx1d nb) k1) as [r|] eqn:E1;
      [|apply nth_error_None in E1; lia].
    symmetry in E.
    destruct (Forall2_nth_error_r _ _ _ _ _ Hk E1) as (c1 & Hc1 & Hk1').
    destruct (Forall2_nth_error_r _ _ _ _ _ Hk E) as (c2 & Hc2 & Hk2').
    destruct (Hkept c1 r (nth_error_In _ _ Hc1) Hk1') as (_ & _ & H1).
    destruct (Hkept c2 r (nth_error_In _ _ Hc2) Hk2') as (_ & _ & H2).
    assert (c1 = c2) by congruence. subst c2.
    eapply (proj1 (NoDup_nth_error (n_ndx1d nb))); eauto.
    + apply nth_error_Some. congruence.
    + congruence.
  - intros r. rewrite Ei. split.
    + intros Hr. destruct (Forall2_In_r _ _ _ _ Hk Hr) as (c & Hc' & Hkr).
      destruct (Hkept c r Hc' Hkr) as (Hciv & Hr0 & Hi0).
      pose proof (Hsub _ Hc') as Hcc. rewrite candidates_offsets, Es in Hcc.
      apply in_map_iff in Hcc as (n & <- & Hn).
      exists n. auto.
    + intros (n & Hn & Hu & Hr0 & Hi0).
      apply In_nth_error in Hn as (kn & Hkn).
      assert (Hck : nth_error (candidates inp st i) kn =
                    Some (v + offset n (sz_xyz inp))).
      { now rewrite candidates_offsets, nth_error_map, Hkn, Es. }
      pose proof (Hrange _ (nth_error_In _ _ Hck)) as Hcr.
      apply In_nth_error in Hu as (j & Hj).
      destruct (iv_nth _ _ _ _ Hp Hj) as (p & _ & Hpj & Hp0 & Hp1 & _).
      assert (p = r).
      { assert (Z.to_nat p = Z.to_nat r); [|lia].
        eapply (proj1 (NoDup_nth_error (iv0 st))).
        - now apply iv0_NoDup with inp.
        - apply nth_error_Some. congruence.
        - congruence. }
      subst p.
      destruct (retained_candidate_kept _ _ _ _ _ _ _ _ _ _ Hp Hj Hpj Hg Ho Hck
                  (norm_index_in_range _ _ Hcr)) as (t & _ & Ht).
      rewrite Eo. apply in_map_iff. exists (r + 1). split; [lia|].
      eapply nth_error_In, Ht.
Qed.

(** X11 at the seed 22 = (1,1,2) of the 3 x 3 x 5 volume. *)
Lemma interior_seed_neighbours_witness :
  exists st e,
    prepare three_voxels = Ok st /\
    seed_step three_voxels st 1 = Ok e /\ NoDup (e_i e).
Proof.
  assert (exists st, prepare three_voxels = Ok st /\
                     nth_error (iv st) 1 = Some 22) as (st & Hp & Hv)
    by (eexists; split; vm_compute; reflexivity).
  assert (Hi : interior 22 (sz_xyz three_voxels)) by (cbn; lia).
  destruct (interior_seed_neighbours three_voxels st 1 22 Hp eq_refl Hv Hi)
    as (_ & e & Hs & _ & Hnd & _).
  exists st, e. auto.
Defined.

Lemma interior_seed_step inp st i v :
  prepare inp = Ok st -> msz inp = sz_xyz inp ->
  nth_error (iv st) i = Some v -> interior v (sz_xyz inp) ->
  exists e, seed_step inp st i = Ok e /\ length (e_w e) = 1%nat.
Proof.
  intros Hp Hsz Hv Hi.
  assert (Es : nth i (iv st) 0 = v) by (now apply nth_error_nth).
  destruct (interior_shape _ _ Hi) as (Hpos & G1 & G2 & _).
  apply (seed_step_completes inp st i v Hp Hv).
  - apply Forall_forall. intros c Hc. rewrite candidates_offsets, Es in Hc.
    apply in_map_iff in Hc as (n & <- & Hn). rewrite Hsz.
    destruct (interior_candidate v _ n Hi Hn) as [Hr _]. lia.
  - apply no_alias_iff; [exact Hpos | lia].
Qed.

(** X12. When mask and data have one shape and no retained voxel has a
    coordinate on the border of the volume, the script runs to its end. *)
Theorem interior_mask_completes (inp : inputs) (st : masked) :
  prepare inp = Ok st -> msz inp = sz_xyz inp ->
  (forall v, In v (iv st) -> interior v (sz_xyz inp)) ->
  exists out, make_local_connectivity_scorr inp = Ok out.
Proof.
  intros Hp Hsz Hint.
  assert (Hrun : exists acc, run inp = Ok acc).
  { unfold run. rewrite Hp. simpl. apply loop_completes; [|reflexivity].
    apply Forall_forall. intros i Hi. apply in_seq in Hi.
    destruct (nth_error_in_range (iv st) i) as (v & Hv); [lia|].
    apply (interior_seed_step inp st i v); auto.
    apply Hint. eapply nth_error_In, Hv. }
  destruct Hrun as (acc & Hr). exists (outlist acc).
  unfold make_local_connectivity_scorr. now rewrite Hr.
Qed.

(** X12 on three voxels of the 3 x 3 x 5 volume, none on its border. *)
Lemma interior_mask_completes_witness :
  exists out, make_local_connectivity_scorr three_voxels = Ok out.
Proof.
  assert (exists st, prepare three_voxels = Ok st /\ iv st = [21; 22; 23])
    as (st & Hp & Hiv)
    by (eexists; split; vm_compute; reflexivity).
  apply (interior_mask_completes three_voxels st Hp eq_refl).
  intros v Hv. rewrite Hiv in Hv.
  destruct Hv as [<-|[<-|[<-|[]]]]; cbn; lia.
Defined.

(** ** The threshold *)

Lemma getitem_map {A B : Type} (f : A -> B) (a : list A) k :
  getitem (map f a) k = rmap f (getitem a k).
Proof.
  unfold getitem. rewrite length_map.
  destruct (norm_index (Z.of_nat (length a)) k) as [j| |]; simpl; try reflexivity.
  rewrite nth_error_map. now destruct (nth_error a (Z.to_nat j)).
Qed.

Lemma take_map {A B : Type} (f : A -> B) (a : list A) idx :
  take (map f a) idx = rmap (map f) (take a idx).
Proof.
  unfold take. induction idx as [|k idx IH]; simpl; [reflexivity|].
  rewrite getitem_map. destruct (getitem a k) as [x| |]; simpl; try reflexivity.
  rewrite IH. now destruct (mapM (getitem a) idx).
Qed.

Lemma cut_neg_infinity x : cut neg_infinity x = x.
Proof.
  unfold cut. rewrite FloatAxioms.ltb_spec.
  replace (Prim2SF neg_infinity) with (S754_infinity true) by reflexivity.
  unfold SFltb. destruct (Prim2SF x) as [s|s| |s m e]; simpl; try reflexivity.
  now destruct s.
Qed.

Lemma map_cut_neg_infinity (R : list (list float)) :
  map (map (cut neg_infinity)) R = R.
Proof.
  rewrite <- (map_id R) at 2. apply map_ext. intros row.
  rewrite <- (map_id row) at 2. apply map_ext. apply cut_neg_infinity.
Qed.

Lemma correlate_thresh inp t st ondx :
  correlate (with_thresh inp t) st ondx =
  rmap (map (map (cut t))) (correlate (with_thresh inp neg_infinity) st ondx).
Proof.
  unfold correlate, with_thresh. simpl.
  destruct (take (imdat st) ondx) as [tc| |]; simpl; try reflexivity.
  now rewrite map_cut_neg_infinity.
Qed.

Lemma seed_step_thresh inp t st i :
  seed_step (with_thresh inp t) st i =
  rmap (recut t) (seed_step (with_thresh inp neg_infinity) st i).
Proof.
  unfold seed_step.
  change (assemble (with_thresh inp t) st i)
    with (assemble (with_thresh inp neg_infinity) st i).
  destruct (assemble (with_thresh inp neg_infinity) st i) as [nb| |];
    simpl; try reflexivity.
  rewrite correlate_thresh.
  destruct (correlate (with_thresh inp neg_infinity) st (n_ondx1d nb)) as [R| |];
    simpl; try reflexivity.
  destruct (take (n_ondx1d nb) (n_nndx nb)) as [sp| |]; simpl; try reflexivity.
  destruct (mul_ones sp (length (n_ondx1d nb))) as [js| |]; simpl; try reflexivity.
  rewrite take_map. now destruct (take R (n_nndx nb)).
Qed.

Lemma append_axis1_map (f : list float -> list float) a b :
  (forall x y, f (x ++ y) = f x ++ f y) ->
  append_axis1 (map f a) (map f b) = rmap (map f) (append_axis1 a b).
Proof.
  intros Hf. unfold append_axis1. rewrite !length_map.
  destruct (length a =? length b)%nat; simpl; [|reflexivity]. f_equal.
  revert b. induction a as [|x a IH]; intros [|y b]; simpl; try reflexivity.
  now rewrite Hf, IH.
Qed.

Lemma append_step_thresh t acc e :
  append_step (recut_accum t acc) (recut t e) =
  rmap (recut_accum t) (append_step acc e).
Proof.
  unfold append_step, recut_accum, recut. simpl.
  rewrite (append_axis1_map (map (cut t))) by (intros; apply map_app).
  now destruct (append_axis1 (sparse_w acc) (e_w e)).
Qed.

Lemma loop_thresh inp t st seeds : forall acc,
  loop (with_thresh inp t) st seeds (recut_accum t acc) =
  rmap (recut_accum t) (loop (with_thresh inp neg_infinity) st seeds acc).
Proof.
  induction seeds as [|i seeds IH]; intros acc; simpl; [reflexivity|].
  rewrite seed_step_thresh.
  destruct (seed_step (with_thresh inp neg_infinity) st i) as [e| |];
    simpl; try reflexivity.
  rewrite append_step_thresh.
  destruct (append_step acc e) as [acc'| |]; simpl; try reflexivity.
  apply IH.
Qed.

Lemma loop_thresh_run inp t :
  run (with_thresh inp t) =
  rmap (recut_accum t) (run (with_thresh inp neg_infinity)).
Proof.
  unfold run.
  change (prepare (with_thresh inp t))
    with (prepare (with_thresh inp neg_infinity)).
  destruct (prepare (with_thresh inp neg_infinity)) as [st| |];
    simpl; try reflexivity.
  apply (loop_thresh inp t st _ accum0).
Qed.

(** X13. The threshold acts on the weights only, and as a last step: the
    run with threshold [t] ends as the run with threshold minus infinity
    does (the same error, or the same rows and columns), with each weight of
    that run cut at [t]. *)
Theorem threshold_is_a_last_step (inp : inputs) (t : float) :
  run (with_thresh inp t) =
    rmap (recut_accum t) (run (with_thresh inp neg_infinity)) /\
  run inp =
    rmap (recut_accum (thresh inp)) (run (with_thresh inp neg_infinity)) /\
  (forall acc, run (with_thresh inp neg_infinity) = Ok acc ->
     make_local_connectivity_scorr (with_thresh inp t) =
     Ok (map Z2F (sparse_i acc) ++ map Z2F (sparse_j acc) ++
         map (cut t) (concat (sparse_w acc)))).
Proof.
  pose proof (loop_thresh_run inp t) as E.
  split; [exact E|split].
  - destruct inp as [m md s0 sx nd th].
    exact (loop_thresh_run
             {| msz := m; mskdat := md; sz_t := s0; sz_xyz := sx;
                nim_data := nd; thresh := th |} th).
  - intros acc Hr. unfold make_local_connectivity_scorr. rewrite E, Hr. simpl.
    unfold outlist, recut_accum. simpl. now rewrite concat_map.
Qed.

(** ** The pattern of the edges *)

Lemma combine_app_same {A B : Type} (a c : list A) (b d : list B) :
  length a = length b -> combine (a ++ c) (b ++ d) = combine a b ++ combine c d.
Proof.
  revert b. induction a as [|x a IH]; intros [|y b] H; simpl in *;
    try discriminate; [reflexivity|].
  f_equal. apply IH. lia.
Qed.

Lemma combine_concat {E A B : Type} (f : E -> list A) (g : E -> list B) es :
  Forall (fun e => length (f e) = length (g e)) es ->
  combine (concat (map f es)) (concat (map g es)) =
  concat (map (fun e => combine (f e) (g e)) es).
Proof.
  induction 1 as [|e es He _ IH]; simpl; [reflexivity|].
  now rewrite combine_app_same, IH.
Qed.

Lemma nth_error_combine_In {A B : Type} (a : list A) (b : list B) t x y :
  nth_error a t = Some x -> nth_error b t = Some y -> In (x, y) (combine a b).
Proof.
  revert a b. induction t as [|t IH]; intros [|x' a] [|y' b] Ha Hb;
    simpl in *; try discriminate.
  - inv_Ok Ha. inv_Ok Hb. now left.
  - right. now apply IH.
Qed.

Lemma run_accepts inp acc st i :
  run inp = Ok acc -> prepare inp = Ok st -> (i < length (iv st))%nat ->
  candidates_accepted inp st i.
Proof.
  intros Hr Hp Hi. destruct (run_seed _ _ _ _ Hr Hp Hi) as (e & Hs & _).
  destruct (seed_step_inv _ _ _ _ Hs) as (nb & _ & _ & Ha & _).
  unfold candidates_accepted.
  eapply Forall_impl; [|exact (assemble_candidates_ok _ _ _ _ Hp Ha)].
  simpl. intros c (c' & Hc). now apply norm_index_Ok in Hc.
Qed.

(** The rows and columns of a completed run, pair by pair, seed by seed. *)
Lemma run_pairs inp acc :
  run inp = Ok acc ->
  exists st es,
    prepare inp = Ok st /\
    Forall2 (fun i e => seed_step inp st i = Ok e /\ length (e_w e) = 1%nat)
            (seq 0 (length (iv st))) es /\
    combine (sparse_i acc) (sparse_j acc) =
    concat (map (fun e => combine (e_i e) (e_j e)) es).
Proof.
  intros Hr. destruct (run_inv _ _ Hr) as (st & es & Hp & HF & -> & -> & _).
  exists st, es. repeat split; auto.
  apply combine_concat. apply Forall_forall. intros e He.
  destruct (Forall2_In_r _ _ _ _ (Forall2_In_l_keep _ _ _ HF) He)
    as (i & _ & Hin & Hs & Hw).
  apply in_seq in Hin.
  destruct (seed_step_lengths inp st i e Hp) as (_ & H1 & _); auto. lia.
Qed.

(** When the map accepts the candidates of every seed, a candidate that
    denotes a retained voxel is that voxel's flat index: no negative index
    reaches a retained voxel from the end of the map. *)
Lemma completed_no_wrap inp st i v c u :
  prepare inp = Ok st ->
  (forall j, (j < length (iv st))%nat -> candidates_accepted inp st j) ->
  nth_error (iv st) i = Some v ->
  In c (candidates inp st i) ->
  norm_index (prod3 (msz inp)) c = Ok u -> In u (iv st) -> c = u.
Proof.
  intros Hp Hacc Hv Hc Hn Hu.
  assert (Es : nth i (iv st) 0 = v) by (now apply nth_error_nth).
  pose proof (iv_nonneg _ _ _ _ Hp Hv) as Hv0.
  apply norm_index_Ok in Hn as (_ & _ & [E|[Hneg E]]); [congruence|].
  exfalso. apply In_nth_error in Hu as (j & Hj).
  assert (Eu : nth j (iv st) 0 = u) by (now apply nth_error_nth).
  rewrite candidates_offsets, Es in Hc.
  apply in_map_iff in Hc as (n & Hcn & Hn).
  assert (Hm : In (u + offset (opposite n) (sz_xyz inp)) (candidates inp st j)).
  { rewrite candidates_offsets, Eu. apply in_map_iff.
    exists (opposite n). split; [reflexivity|]. now apply neighbors_opposite. }
  assert (Hj' : (j < length (iv st))%nat) by (apply nth_error_Some; congruence).
  specialize (Hacc j Hj'). unfold candidates_accepted in Hacc.
  rewrite Forall_forall in Hacc. specialize (Hacc _ Hm).
  rewrite offset_opposite in Hacc. lia.
Qed.

(** X14. In a run that completes, the pattern of the edges is symmetric:
    whenever the output holds an edge of row [r] and column [c], it holds an
    edge of row [c] and column [r]. *)
Theorem pattern_is_symmetric (inp : inputs) (acc : accum) :
  run inp = Ok acc ->
  forall r c,
    In (r, c) (combine (sparse_i acc) (sparse_j acc)) ->
    In (c, r) (combine (sparse_i acc) (sparse_j acc)).
Proof.
  intros Hr r c Hin.
  destruct (run_pairs _ _ Hr) as (st & es & Hp & HF & Epairs).
  rewrite Epairs in *.
  apply in_concat in Hin as (l & Hl & Hin).
  apply in_map_iff in Hl as (e & <- & He).
  destruct (Forall2_In_r _ _ _ _ (Forall2_In_l_keep _ _ _ HF) He)
    as (i & _ & Hi & Hs & Hw).
  apply in_seq in Hi.
  assert (Hil : (i < length (iv st))%nat) by lia. clear Hi. rename Hil into Hi.
  destruct (nth_error_in_range (iv st) i) as (v & Hv); [lia|].
  destruct (seed_step_self _ _ _ _ _ Hp Hv Hs Hw)
    as (nb & p & k0 & R & Ha & Ei & Hpi & _ & Hk0 & Ej & _).
  pose proof (in_combine_l _ _ _ _ Hin) as Hri.
  pose proof (in_combine_r _ _ _ _ Hin) as Hcj.
  rewrite Ej in Hcj. apply repeat_spec in Hcj. subst c.
  (* the voxel of the row *)
  rewrite Ei in Hri.
  destruct (Forall2_In_r _ _ _ _ (assemble_kept _ _ _ _ Hp Ha) Hri)
    as (c0 & Hc0 & Hkept).
  destruct (kept_as_retained _ _ _ _ Hp Hkept) as (u & j & Hn & Hj & Hjr & _).
  pose proof (assemble_sub _ _ _ _ Ha) as Hsub. rewrite Forall_forall in Hsub.
  assert (c0 = u).
  { apply (completed_no_wrap inp st i v c0 u); auto.
    - intros j' Hj'. now apply (run_accepts inp acc).
    - eapply nth_error_In, Hj. }
  subst c0.
  pose proof (Hsub _ Hc0) as Hcand.
  assert (Es : nth i (iv st) 0 = v) by (now apply nth_error_nth).
  rewrite candidates_offsets, Es in Hcand.
  apply in_map_iff in Hcand as (n & Hun & Hn').
  (* the seed of that voxel *)
  assert (Hjl : (j < length (iv st))%nat) by (apply nth_error_Some; congruence).
  assert (Hsj : nth_error (seq 0 (length (iv st))) j = Some j).
  { rewrite nth_error_seq.
    destruct (Nat.ltb_spec j (length (iv st))); [reflexivity|lia]. }
  destruct (Forall2_nth_error_l _ _ _ _ _ HF Hsj) as (e' & He' & Hs' & Hw').
  destruct (seed_step_self _ _ _ _ _ Hp Hj Hs' Hw')
    as (nb' & p' & k0' & R' & Ha' & Ei' & Hpj & _ & _ & Ej' & _).
  assert (p' = r) by congruence. subst p'.
  destruct (assemble_inv _ _ _ _ Ha') as (ondx' & o' & Hg' & _ & Ho' & Eo' & _).
  apply neighbors_opposite in Hn'. apply In_nth_error in Hn' as (kn & Hkn).
  assert (Eu : nth j (iv st) 0 = u) by (now apply nth_error_nth).
  assert (Hck : nth_error (candidates inp st j) kn = Some v).
  { rewrite candidates_offsets, nth_error_map, Hkn, Eu. simpl. f_equal.
    rewrite offset_opposite. lia. }
  assert (Hvr : 0 <= v < prod3 (msz inp)).
  { pose proof (iv_nonneg _ _ _ _ Hp Hv).
    pose proof (run_accepts inp acc st i Hr Hp Hi) as Hacc.
    unfold candidates_accepted in Hacc. rewrite Forall_forall in Hacc.
    pose proof (Hacc v) as Hvv. rewrite <- Es in Hvv at 1.
    specialize (Hvv (nth_error_In _ _ (candidates_seed inp st i))). lia. }
  destruct (retained_candidate_kept _ _ _ _ _ _ _ _ _ _ Hp Hv Hpi Hg' Ho' Hck
              (norm_index_in_range _ _ Hvr)) as (t & _ & Ht).
  apply in_concat. exists (combine (e_i e') (e_j e')). split.
  - apply (in_map (fun e => combine (e_i e) (e_j e))). eapply nth_error_In, He'.
  - apply (nth_error_combine_In _ _ t).
    + rewrite Ei', Eo', nth_error_map, Ht. simpl. f_equal. lia.
    + rewrite Ej'. apply nth_error_repeat.
      rewrite Ei', Eo', length_map. apply nth_error_Some. congruence.
Qed.

(** X14 on a run over three voxels. *)
Lemma pattern_is_symmetric_witness :
  exists acc,
    run three_voxels = Ok acc /\
    forall r c,
      In (r, c) (combine (sparse_i acc) (sparse_j acc)) ->
      In (c, r) (combine (sparse_i acc) (sparse_j acc)).
Proof.
  assert (exists acc, run three_voxels = Ok acc) as (acc & Hr)
    by (eexists; vm_compute; reflexivity).
  exists acc. split; [exact Hr|].
  exact (pattern_is_symmetric three_voxels acc Hr).
Defined.

Lemma offset_injective (sz : shape3) n n' :
  3 <= sz_1 sz -> 3 <= sz_2 sz ->
  In n neighbors -> In n' neighbors ->
  offset n sz = offset n' sz -> n = n'.
Proof.
  destruct sz as [[s0 s1] s2]. unfold sz_1, sz_2. intros G1 G2 Hn Hn' E.
  apply neighbors_range in Hn, Hn'.
  destruct n as [[a b] c], n' as [[a' b'] c'].
  unfold offset in E; cbn [prod_1_3 sz_2] in E.
  assert (Hf : ((a - a') * s1 + (b - b')) * s2 = c' - c) by lia.
  assert (Ha : (a - a') * s1 + (b - b') = 0) by nia.
  assert (c = c') by nia.
  assert (a = a') by nia.
  assert (b = b') by nia.
  congruence.
Qed.

Lemma NoDup_combine_l {A B : Type} (a : list A) (b : list B) :
  NoDup a -> NoDup (combine a b).
Proof.
  intros Ha; revert b. induction Ha as [|x a Hx _ IH]; intros [|y b]; simpl;
    try constructor.
  - intros Hin. apply Hx. eapply in_combine_l, Hin.
  - apply IH.
Qed.

Lemma NoDup_concat_keys {A : Type} (key : A -> Z) (ks : list Z)
      (ls : list (list A)) :
  NoDup ks ->
  Forall2 (fun k l => NoDup l /\ Forall (fun x => key x = k) l) ks ls ->
  NoDup (concat ls) /\ forall x, In x (concat ls) -> In (key x) ks.
Proof.
  intros Hnd HF; revert Hnd.
  induction HF as [|k l ks ls (Hl & Hk) _ IH]; intros Hnd; simpl.
  - split; [constructor|easy].
  - inversion Hnd as [|? ? Hn Hnd']; subst.
    destruct (IH Hnd') as [IH1 IH2]. rewrite Forall_forall in Hk. split.
    + apply NoDup_app; auto. intros x Hx Hx'.
      apply IH2 in Hx'. rewrite (Hk _ Hx) in Hx'. contradiction.
    + intros x Hx. apply in_app_or in Hx as [Hx|Hx].
      * left. symmetry. now apply Hk.
      * right. now apply IH2.
Qed.

(** X15. On a volume whose middle and last axis have length 3 at least, a
    run that completes emits no edge twice: no two triplets have the same
    row and the same column. *)
Theorem no_duplicate_edges (inp : inputs) (acc : accum) :
  run inp = Ok acc ->
  3 <= sz_1 (sz_xyz inp) -> 3 <= sz_2 (sz_xyz inp) ->
  NoDup (combine (sparse_i acc) (sparse_j acc)).
Proof.
  intros Hr G1 G2.
  destruct (run_pairs _ _ Hr) as (st & es & Hp & HF & ->).
  apply (NoDup_concat_keys snd (vndx st)); [now apply vndx_NoDup with inp|].
  apply Forall2_map_r.
  apply (Forall2_seq_nth _ (nth_error (vndx st)) (vndx st) 0%nat es).
  { intros k. reflexivity. }
  rewrite <- (iv_length _ _ Hp).
  eapply Forall2_impl; [|exact (Forall2_In_l_keep _ _ _ HF)].
  simpl. intros i e (Hin & Hs & Hw). apply in_seq in Hin.
  assert (Hi : (i < length (iv st))%nat) by lia.
  destruct (nth_error_in_range (iv st) i Hi) as (v & Hv).
  destruct (seed_step_self _ _ _ _ _ Hp Hv Hs Hw)
    as (nb & p & k0 & R & Ha & Ei & Hpi & _ & _ & Ej & _).
  exists p. split; [exact Hpi|]. split.
  - apply NoDup_combine_l.
    assert (Es : nth i (iv st) 0 = v) by (now apply nth_error_nth).
    destruct (assemble_inv _ _ _ _ Ha) as (ondx & o & _ & Hc & _).
    pose proof (assemble_kept _ _ _ _ Hp Ha) as Hk.
    pose proof (assemble_sub _ _ _ _ Ha) as Hsub. rewrite Forall_forall in Hsub.
    assert (Hndc : NoDup (candidates inp st i)).
    { rewrite candidates_offsets, Es.
      assert (Hndn : NoDup neighbors).
      { unfold neighbors.
        repeat (constructor; [simpl; intuition discriminate|]). constructor. }
      apply NoDup_nth_error. intros k1 k2 Hk1 E.
      rewrite length_map in Hk1. rewrite !nth_error_map in E.
      destruct (nth_error_in_range neighbors k1 Hk1) as (n1 & Hn1).
      rewrite Hn1 in E. simpl in E.
      destruct (nth_error neighbors k2) as [n2|] eqn:Hn2; [|discriminate].
      simpl in E. injection E as E.
      assert (n1 = n2).
      { apply (offset_injective (sz_xyz inp)); auto.
        - eapply nth_error_In, Hn1.
        - eapply nth_error_In, Hn2.
        - lia. }
      subst n2.
      eapply (proj1 (NoDup_nth_error neighbors)); eauto. congruence. }
    assert (Hnd1 : NoDup (n_ndx1d nb)).
    { apply (take_NoDup (candidates inp st i) (nonzero (map nz ondx))); auto.
      - apply nonzero_NoDup.
      - apply nonzero_nonneg. }
    rewrite Ei. apply NoDup_nth_error. intros k1 k2 Hk1 E.
    destruct (nth_error (n_ondx1d nb) k1) as [r|] eqn:E1;
      [|apply nth_error_None in E1; lia].
    symmetry in E.
    destruct (Forall2_nth_error_r _ _ _ _ _ Hk E1) as (c1 & Hc1 & Hk1').
    destruct (Forall2_nth_error_r _ _ _ _ _ Hk E) as (c2 & Hc2 & Hk2').
    destruct (kept_as_retained _ _ _ _ Hp Hk1') as (u1 & j1 & Hn1 & Hj1 & _ & _ & Hu1).
    destruct (kept_as_retained _ _ _ _ Hp Hk2') as (u2 & j2 & Hn2 & Hj2 & _ & _ & Hu2).
    assert (Hacc : forall j, (j < length (iv st))%nat -> candidates_accepted inp st j).
    { intros j Hj. now apply (run_accepts inp acc). }
    assert (c1 = u1).
    { apply (completed_no_wrap inp st i v c1 u1); auto.
      - apply Hsub. eapply nth_error_In, Hc1.
      - eapply nth_error_In, Hj1. }
    assert (c2 = u2).
    { apply (completed_no_wrap inp st i v c2 u2); auto.
      - apply Hsub. eapply nth_error_In, Hc2.
      - eapply nth_error_In, Hj2. }
    assert (c1 = c2) by congruence. subst c2.
    eapply (proj1 (NoDup_nth_error (n_ndx1d nb))); eauto.
    + apply nth_error_Some. congruence.
    + congruence.
  - apply Forall_forall. intros [r c] Hrc. simpl.
    apply in_combine_r in Hrc. rewrite Ej in Hrc. now apply repeat_spec in Hrc.
Qed.

(** X15 on a run over three voxels of the 3 x 3 x 5 volume. *)
Lemma no_duplicate_edges_witness :
  exists acc,
    run three_voxels = Ok acc /\
    NoDup (combine (sparse_i acc) (sparse_j acc)).
Proof.
  assert (exists acc, run three_voxels = Ok acc) as (acc & Hr)
    by (eexists; vm_compute; reflexivity).
  exists acc. split; [exact Hr|].
  apply (no_duplicate_edges three_voxels acc Hr); cbn; lia.
Defined.

(** ** Counting the edges *)

Lemma concat_length_bounds {E A : Type} (f : E -> list A) (es : list E) lo hi :
  Forall (fun e => (lo <= length (f e) <= hi)%nat) es ->
  (lo * length es <= length (concat (map f es)) <= hi * length es)%nat.
Proof.
  induction 1 as [|e es He _ IH]; simpl; [lia|].
  rewrite length_app. lia.
Qed.

(** X16. In a run that completes over [m] retained voxels, the number of
    triplets is at least [m] and at most [27 * m]; the saved vector is empty
    exactly when no voxel is retained. *)
Theorem edge_count_bounds (inp : inputs) (acc : accum) (st : masked) :
  run inp = Ok acc -> prepare inp = Ok st ->
  (length (iv st) <= length (sparse_i acc) <= 27 * length (iv st))%nat /\
  (outlist acc = [] <-> iv st = []).
Proof.
  intros Hr Hp.
  destruct (run_inv _ _ Hr) as (st' & es & Hp' & HF & Ei & Ej & Ew).
  assert (st' = st) by congruence. subst st'.
  assert (Hlen : length es = length (iv st)).
  { apply Forall2_length in HF. now rewrite length_seq in HF. }
  assert (HB : (1 * length es <= length (sparse_i acc) <= 27 * length es)%nat).
  { rewrite Ei. apply concat_length_bounds. apply Forall_forall. intros e He.
    destruct (Forall2_In_r _ _ _ _ (Forall2_In_l_keep _ _ _ HF) He)
      as (i & _ & Hin & Hs & Hw).
    apply in_seq in Hin.
    destruct (seed_step_lengths inp st i e Hp) as (Hb & _); auto. lia. }
  rewrite Hlen in HB. split; [lia|].
  unfold outlist. split.
  - intros E. apply app_eq_nil in E as [E _]. apply map_eq_nil in E.
    rewrite E in HB. simpl in HB. destruct (iv st); [reflexivity|simpl in HB; lia].
  - intros E. rewrite E in *. simpl in HB.
    assert (Hi0 : sparse_i acc = []) by (destruct (sparse_i acc); [reflexivity|simpl in HB; lia]).
    destruct es; [|discriminate]. simpl in Ej, Ew.
    rewrite Hi0, Ej, Ew. reflexivity.
Qed.

(** X16 on a run over three voxels. *)
Lemma edge_count_bounds_witness :
  exists acc st,
    run three_voxels = Ok acc /\ prepare three_voxels = Ok st /\
    (length (iv st) <= length (sparse_i acc) <= 27 * length (iv st))%nat.
Proof.
  assert (exists acc st, run three_voxels = Ok acc /\
                         prepare three_voxels = Ok st) as (acc & st & Hr & Hp)
    by (do 2 eexists; split; vm_compute; reflexivity).
  exists acc, st. repeat split; auto;
    apply (proj1 (edge_count_bounds three_voxels acc st Hr Hp)).
Defined.

(** X17. In a run that completes, every retained voxel has its own edge in
    the output: for each position [p] kept by the variance test, a triplet
    of row [p] and column [p] is emitted. *)
Theorem diagonal_is_present (inp : inputs) (acc : accum) (st : masked) :
  run inp = Ok acc -> prepare inp = Ok st ->
  forall p, In p (vndx st) ->
            In (p, p) (combine (sparse_i acc) (sparse_j acc)).
Proof.
  intros Hr Hp p Hin.
  destruct (run_pairs _ _ Hr) as (st' & es & Hp' & HF & ->).
  assert (st' = st) by congruence. subst st'.
  apply In_nth_error in Hin as (i & Hi).
  destruct (vndx_nth _ _ _ _ Hp Hi) as (v & Hv).
  assert (Hsi : nth_error (seq 0 (length (iv st))) i = Some i).
  { rewrite nth_error_seq.
    assert (i < length (iv st))%nat by (apply nth_error_Some; congruence).
    destruct (Nat.ltb_spec i (length (iv st))); [reflexivity|lia]. }
  destruct (Forall2_nth_error_l _ _ _ _ _ HF Hsi) as (e & He & Hs & Hw).
  destruct (seed_step_self _ _ _ _ _ Hp Hv Hs Hw)
    as (nb & p' & k0 & R & Ha & Ei & Hpi & _ & Hk0 & Ej & Hrow & _).
  assert (p' = p) by congruence. subst p'.
  apply in_concat. exists (combine (e_i e) (e_j e)). split.
  - apply (in_map (fun e => combine (e_i e) (e_j e))). eapply nth_error_In, He.
  - apply (nth_error_combine_In _ _ k0).
    + now apply Hrow.
    + rewrite Ej. apply nth_error_repeat. apply nth_error_Some.
      rewrite (proj2 (Hrow k0) eq_refl). discriminate.
Qed.

(** X17 on a run over three voxels. *)
Lemma diagonal_is_present_witness :
  exists acc,
    run three_voxels = Ok acc /\
    In (1, 1) (combine (sparse_i acc) (sparse_j acc)).
Proof.
  assert (exists acc st, run three_voxels = Ok acc /\
                         prepare three_voxels = Ok st /\
                         In 1 (vndx st)) as (acc & st & Hr & Hp & Hin)
    by (do 2 eexists; repeat split; vm_compute; auto).
  exists acc. split; [exact Hr|].
  exact (diagonal_is_present three_voxels acc st Hr Hp 1 Hin).
Defined.

(** ** The normalised time courses *)

(** X18. Once the index map is built, the normalised matrix holds no NaN,
    and each of its columns has as many entries as the time course of its
    voxel in the data. *)
Theorem normalised_has_no_nan (inp : inputs) (st : masked) :
  prepare inp = Ok st ->
  Forall (Forall (fun x => isnan x = false)) (imdat st) /\
  (forall j v, nth_error (iv0 st) j = Some v ->
     exists raw col, getitem (nim_data inp) v = Ok raw /\
                     nth_error (imdat st) j = Some col /\
                     length col = length raw).
Proof.
  intros Hp. split.
  - destruct (prepare_inv _ _ Hp) as (_ & (raw & _ & ->) & _).
    apply Forall_forall. intros col Hc. apply in_map_iff in Hc as (r & <- & _).
    unfold zscore. apply Forall_forall. intros x Hx.
    apply in_map_iff in Hx as (y & <- & _).
    now destruct (isnan ((y - mean r) / std r)) eqn:E.
  - intros j v Hj. destruct (imdat_columns _ _ _ _ Hp Hj) as (raw & Hg & Hc).
    exists raw, (zscore raw). repeat split; auto. unfold zscore. apply length_map.
Qed.

(** X18 on the mask with a constant time course. *)
Lemma normalised_has_no_nan_witness :
  exists st,
    prepare constant_neighbour = Ok st /\
    Forall (Forall (fun x => isnan x = false)) (imdat st).
Proof.
  assert (exists st, prepare constant_neighbour = Ok st) as (st & Hp)
    by (eexists; vm_compute; reflexivity).
  exists st. split; [exact Hp|].
  exact (proj1 (normalised_has_no_nan constant_neighbour st Hp)).
Defined.
